(** * A caching reverse proxy for the NZTA traffic REST API (server.js)

    Shallow embedding of the request pipeline of [server.js]: the resource
    whitelist, the cache-key derivation, the two-tier cache, the fetch job
    with its timeout timer, and the decision tree that follows the job.

    Conventions.
    - JavaScript strings are [string]s (byte sequences: the UTF-8 form of
      the text).
    - A JavaScript value that can sit in the cache or in a response body is
      a [json] tree; [undefined] (a cache miss) is [None].
    - An object is the list of its own properties in enumeration order.
    - [async] code is split at its [await] points; the outcome of the
      awaited [fetch] is an input of the model ([upstream_behaviour]).
    - An exception is the [Throw] branch of [js_result]. *)

From Stdlib Require Import ZArith Ascii String.
From stdpp Require Import gmap strings list fin_maps pretty.

Set Warnings "-register-all".
#[local] Arguments String.append : simpl nomatch.
Local Open Scope Z_scope.
Local Open Scope string_scope.

(** ** JSON values *)

Module Json.

(** Numbers are kept as integers: the program only tests a number for
    being zero (truthiness) and passes it along. *)
Inductive json : Type :=
| JNull
| JBool (b : bool)
| JNum (n : Z)
| JStr (s : string)
| JArr (items : list json)
| JObj (props : list (string * json)).

(** [if (v)] on a cached value: [null], [false], [0] and [""] are falsy,
    every object and array is truthy.  [undefined] is [None], see
    [truthy_opt]. *)
Definition truthy (v : json) : bool :=
  match v with
  | JNull => false
  | JBool b => b
  | JNum n => negb (Z.eqb n 0)
  | JStr s => negb (String.eqb s "")
  | JArr _ => true
  | JObj _ => true
  end.

Definition truthy_opt (o : option json) : bool :=
  match o with
  | None => false
  | Some v => truthy v
  end.

(** [typeof v === 'string'] *)
Definition is_string (v : json) : bool :=
  match v with
  | JStr _ => true
  | _ => false
  end.

Definition is_object (v : json) : bool :=
  match v with
  | JObj _ => true
  | _ => false
  end.

(** Property read [o[k]] on a property list. *)
Fixpoint get_prop (k : string) (props : list (string * json)) : option json :=
  match props with
  | [] => None
  | (k', v) :: rest => if String.eqb k k' then Some v else get_prop k rest
  end.

(** Property write [o[k] = v]: an existing property keeps its place and
    takes the new value, a new one goes to the end. *)
Fixpoint set_prop (k : string) (v : json) (props : list (string * json))
  : list (string * json) :=
  match props with
  | [] => [(k, v)]
  | (k', v') :: rest =>
      if String.eqb k k' then (k, v) :: rest else (k', v') :: set_prop k v rest
  end.

(** The index keys ["0"], ["1"], ... of an array or of a string. *)
Fixpoint indexed {A} (f : A -> json) (i : nat) (l : list A)
  : list (string * json) :=
  match l with
  | [] => []
  | x :: rest => (pretty i, f x) :: indexed f (S i) rest
  end.

Fixpoint chars (s : string) : list string :=
  match s with
  | EmptyString => []
  | String c rest => String c EmptyString :: chars rest
  end.

(** The own enumerable properties that [{...v}] copies: those of an
    object, the elements of an array, the characters of a string, and none
    for a number, a boolean or [null]. *)
Definition own_props (v : json) : list (string * json) :=
  match v with
  | JObj props => props
  | JArr items => indexed (fun x => x) 0 items
  | JStr s => indexed JStr 0 (chars s)
  | JNull | JBool _ | JNum _ => []
  end.

(** [{ ...v }]: each copied property is written into a new object. *)
Definition spread (v : json) : list (string * json) :=
  fold_left (fun acc kv => set_prop (fst kv) (snd kv) acc) (own_props v) [].

End Json.

Import Json.

(** ** Resource validator *)

(** The literal of [isSafeResource]. *)
Definition allowed : gset string :=
  list_to_set
    [ "findCamerasAll"; "findCamerasWithinBounds"; "findCamerasByRegion";
      "findCamerasByJourney";
      "findRoadEventsAll"; "findRoadEventsWithinBounds";
      "findRoadEventsByRegion"; "findRoadEventsByJourney";
      "findVmsSignsAll"; "findVmsSignsWithinBounds"; "findVmsSignsByRegion";
      "findVmsSignsByJourney";
      "findTimSignsAll"; "findTimSignsWithinBounds"; "findTimSignsByRegion";
      "findTimSignsByJourney";
      "findRegionsAll"; "findRegionsWithinBounds";
      "findWaysAll"; "findWaysWithinBounds";
      "findJourneysAll"; "findJourneysWithinBounds" ].

Definition isSafeResource (name : string) : bool :=
  bool_decide (name ∈ allowed).

(** ** Cache key

    [new URLSearchParams(req.query).toString()] is the
    application/x-www-form-urlencoded serializer of the URL standard: a
    space becomes [+], the letters, digits and [* - . _] stay, every other
    byte becomes [%XX] with upper-case digits; a pair is [name=value] and
    pairs are joined with [&]. *)

Module Query.

Definition in_range (lo hi : N) (c : ascii) : bool :=
  let n := N_of_ascii c in (N.leb lo n && N.leb n hi)%bool.

Definition is_alnum (c : ascii) : bool :=
  (in_range 48 57 c || in_range 65 90 c || in_range 97 122 c)%bool.

Definition form_safe (c : ascii) : bool :=
  (is_alnum c || Ascii.eqb c "*" || Ascii.eqb c "-" || Ascii.eqb c "."
   || Ascii.eqb c "_")%bool.

Definition hex_digit (n : N) : ascii :=
  nth (N.to_nat n) (list_ascii_of_string "0123456789ABCDEF") "0"%char.

Definition percent_encode (c : ascii) : string :=
  let n := N_of_ascii c in
  String "%" (String (hex_digit (n / 16)) (String (hex_digit (n mod 16)) "")).

Definition encode_byte (c : ascii) : string :=
  if Ascii.eqb c " " then "+"
  else if form_safe c then String c ""
  else percent_encode c.

Fixpoint urlencode (s : string) : string :=
  match s with
  | "" => ""
  | String c rest => encode_byte c ++ urlencode rest
  end.

Definition serialize_pair (p : string * string) : string :=
  urlencode (fst p) ++ "=" ++ urlencode (snd p).

Fixpoint URLSearchParams_toString (q : list (string * string)) : string :=
  match q with
  | [] => ""
  | [p] => serialize_pair p
  | p :: rest => serialize_pair p ++ "&" ++ URLSearchParams_toString rest
  end.

(** Reading back the first encoded byte of a serialized string; the
    inverse of [encode_byte], used to show that the serializer loses
    nothing. *)
Definition unhex (c : ascii) : option N :=
  let n := N_of_ascii c in
  if in_range 48 57 c then Some (n - 48)%N
  else if in_range 65 70 c then Some (n - 55)%N
  else None.

Definition decode_head (s : string) : option (ascii * string) :=
  match s with
  | "" => None
  | String c rest =>
      if Ascii.eqb c "+" then Some (" "%char, rest)
      else if Ascii.eqb c "%" then
        match rest with
        | String h (String l rest') =>
            match unhex h, unhex l with
            | Some a, Some b => Some (ascii_of_N (16 * a + b), rest')
            | _, _ => None
            end
        | _ => None
        end
      else Some (c, rest)
  end.

(** The two separators of a query string. *)
Definition delim (c : ascii) : bool :=
  (Ascii.eqb c "=" || Ascii.eqb c "&")%bool.

Definition not_colon (c : ascii) : bool := negb (Ascii.eqb c ":").

Fixpoint all_chars (P : ascii -> bool) (s : string) : bool :=
  match s with
  | "" => true
  | String c rest => (P c && all_chars P rest)%bool
  end.

(** Where an encoded name or value ends: at the end of the text or at a
    separator. *)
Definition stop (r : string) : Prop :=
  match r with
  | "" => True
  | String c _ => delim c = true
  end.

(** What follows the first pair in a serialized query. *)
Definition more_pairs (rest : list (string * string)) : string :=
  match rest with
  | [] => ""
  | _ :: _ => "&" ++ URLSearchParams_toString rest
  end.

End Query.

Import Query.

(** The request as the handler reads it: [req.params.resource] and
    [req.query].  [query] is the list of entries that
    [new URLSearchParams(req.query)] reads from the object: one pair per
    own property, in the object's enumeration order (names that are array
    indices first, in ascending order, then the other names in the order
    they were created), the value converted to a string (the values of a
    repeated name, an array, joined with commas).  It is not the order of
    the parameters in the URL. *)
Record request : Type := {
  resource : string;
  query : list (string * string)
}.

(** [const key = `traffic:${resource}:${qs}`] *)
Definition cacheKey (res : string) (q : list (string * string)) : string :=
  "traffic:" ++ res ++ ":" ++ URLSearchParams_toString q.

(** [const target = `${NZTABASE}/${resource}${qs ? `?${qs}` : ''}`] *)
Definition targetUrl (base res : string) (q : list (string * string)) : string :=
  let qs := URLSearchParams_toString q in
  base ++ "/" ++ res ++ (if String.eqb qs "" then "" else "?" ++ qs).

(** ** Cache store *)

Module NodeCache.

(** Modelled from the spec: the Cache Store is the node-cache package,
    which is not under src/.  An entry is a value with its insertion time
    and its TTL; [get] returns the value only while the entry has not
    expired; [set] inserts or overwrites and restarts the expiry clock; a
    [set] without a TTL takes the store's standard TTL.  Times are in
    milliseconds, TTLs in seconds. *)
Record entry : Type := {
  value : json;
  stored_at : Z;
  ttl : Z
}.

Record store : Type := {
  stdTTL : Z;
  data : gmap string entry
}.

(** Modelled from the spec: [new NodeCache({ stdTTL })], an empty store. *)
Definition create (std : Z) : store := {| stdTTL := std; data := ∅ |}.

(** Modelled from the spec: an entry expires when its TTL has elapsed. *)
Definition live (now : Z) (e : entry) : bool :=
  Z.ltb now (stored_at e + 1000 * ttl e).

(** Modelled from the spec: [get(key) -> value | miss]. *)
Definition get (now : Z) (key : string) (c : store) : option json :=
  match data c !! key with
  | Some e => if live now e then Some (value e) else None
  | None => None
  end.

(** Modelled from the spec: [set(key, value, ttlSeconds)]. *)
Definition set (now : Z) (key : string) (v : json) (t : option Z) (c : store)
  : store :=
  {| stdTTL := stdTTL c;
     data := <[key := {| value := v; stored_at := now;
                         ttl := default (stdTTL c) t |}]> (data c) |}.

End NodeCache.

(** ** Process state and environment *)

(** The constants read from the environment at start-up. *)
Record config : Type := {
  NZTABASE : string;
  CACHETTL : Z;
  REQUESTTIMEOUTMS : Z;
  CONCURRENCY : nat
}.

(** A timer made by [setTimeout]: armed until it fires or is cleared. *)
Inductive timer_state : Type :=
| Armed
| Fired
| Cleared.

(** What the handlers share: the cache, the clock [Date.now()], the timers
    of the event loop, and the URLs handed to [fetch] so far (oldest
    first), which counts the upstream calls. *)
Record World : Type := {
  cache : NodeCache.store;
  clock : Z;
  timers : gmap nat timer_state;
  next_timer : nat;
  fetched : list string
}.

Definition boot (cfg : config) (now : Z) : World :=
  {| cache := NodeCache.create (CACHETTL cfg); clock := now; timers := ∅;
     next_timer := O; fetched := [] |}.

Definition with_cache (c : NodeCache.store) (w : World) : World :=
  {| cache := c; clock := clock w; timers := timers w;
     next_timer := next_timer w; fetched := fetched w |}.

Definition with_timers (t : gmap nat timer_state) (w : World) : World :=
  {| cache := cache w; clock := clock w; timers := t;
     next_timer := next_timer w; fetched := fetched w |}.

(** Time passing while a handler is suspended at an [await]. *)
Definition tick (dt : Z) (w : World) : World :=
  {| cache := cache w; clock := clock w + dt; timers := timers w;
     next_timer := next_timer w; fetched := fetched w |}.

Record js_error : Type := { name : string }.

Inductive js_result (A : Type) : Type :=
| Return (a : A)
| Throw (e : js_error).
Arguments Return {A} a.
Arguments Throw {A} e.

(** The response object that [fetch] resolves with: [resp.status], the
    [content-type] header if there is one, and what reading the body as
    text gives (the text, or the error the read rejects with). *)
Record upstream_response : Type := {
  resp_status : Z;
  content_type : option string;
  body_text : js_result string
}.

(** How the awaited [fetch] settles.  [TimesOut]: the timer of
    [timeoutSignal] fires first, the controller aborts and [fetch] rejects
    with an [AbortError].  [Fails e]: [fetch] rejects with [e] for another
    cause (DNS, refused connection, reset), the timer not having fired. *)
Inductive upstream_behaviour : Type :=
| Responds (r : upstream_response)
| Fails (e : js_error)
| TimesOut.

(** What the handler sends: [res.status(..)], the [X-Cache] header if set,
    and the document given to [res.json(..)]. *)
Record response : Type := {
  status : Z;
  x_cache : option string;
  body : json
}.

(** [timeoutSignal(ms)]: arms a timer; [cancel] is [clearTimeout(id)].
    Whether the timer fires before the fetch settles is told by the
    [upstream_behaviour] of the request. *)
Definition timeoutSignal (w : World) : nat * World :=
  (next_timer w,
   {| cache := cache w; clock := clock w;
      timers := <[next_timer w := Armed]> (timers w);
      next_timer := S (next_timer w); fetched := fetched w |}).

Definition cancel (id : nat) (w : World) : World :=
  match timers w !! id with
  | Some Armed => with_timers (<[id := Cleared]> (timers w)) w
  | _ => w
  end.

(** The timer's callback [() => controller.abort()] runs. *)
Definition fire (id : nat) (w : World) : World :=
  match timers w !! id with
  | Some Armed => with_timers (<[id := Fired]> (timers w)) w
  | _ => w
  end.

(** [resp.ok] *)
Definition ok (r : upstream_response) : bool :=
  (Z.leb 200 (resp_status r) && Z.leb (resp_status r) 299)%bool.

(** [hay.includes(needle)] *)
Fixpoint includes (needle hay : string) : bool :=
  (String.prefix needle hay
   || match hay with
      | "" => false
      | String _ rest => includes needle rest
      end)%bool.

(** ** The handler of [GET /api/traffic/:resource] *)

Section Handler.

Variable cfg : config.

(** [JSON.parse] of the platform, [None] when it throws a [SyntaxError]. *)
Variable JSON_parse : string -> option json.

(** The locals that live across the [await]: [key], [target] and the timer
    behind [signal] and [cancel]. *)
Record pending : Type := {
  p_key : string;
  p_target : string;
  p_timer : nat
}.

(** The object the job returns: [{ error, status, data }]. *)
Record job_result : Type := {
  error : bool;
  jr_status : Z;
  jr_data : json
}.

Inductive started : Type :=
| Responded (r : response)
| Submitted (p : pending).

Definition send (code : Z) (marker : option string) (doc : json) : response :=
  {| status := code; x_cache := marker; body := doc |}.

(** Lines 41-59: from the top of the [try] to the call of [limit]. *)
Definition handle_start (req : request) (w : World) : started * World :=
  if negb (isSafeResource (resource req)) then
    (Responded (send 400 None (JObj [("error", JStr "Unsupported resource")])), w)
  else
    let target := targetUrl (NZTABASE cfg) (resource req) (query req) in
    let key := cacheKey (resource req) (query req) in
    let cached := NodeCache.get (clock w) key (cache w) in
    let miss :=
      let '(id, w1) := timeoutSignal w in
      (Submitted {| p_key := key; p_target := target; p_timer := id |}, w1) in
    match cached with
    | Some v => if truthy v then (Responded (send 200 (Some "HIT") v), w) else miss
    | None => miss
    end.

(** Line 60, the call: the job has a slot of the limiter and hands the
    target to [fetch]. *)
Definition fetch_call (p : pending) (w : World) : World :=
  {| cache := cache w; clock := clock w; timers := timers w;
     next_timer := next_timer w; fetched := fetched w ++ [p_target p] |}.

(** [resp.text()] and [resp.json()] *)
Definition resp_text (r : upstream_response) : js_result json :=
  match body_text r with
  | Return t => Return (JStr t)
  | Throw e => Throw e
  end.

Definition resp_json (r : upstream_response) : js_result json :=
  match body_text r with
  | Return t =>
      match JSON_parse t with
      | Some v => Return v
      | None => Throw {| name := "SyntaxError" |}
      end
  | Throw e => Throw e
  end.

(** Lines 60-73, from the moment the awaited [fetch] settles to the end of
    the job. *)
Definition job_settle (p : pending) (b : upstream_behaviour) (w : World)
  : js_result job_result * World :=
  match b with
  | TimesOut => (Throw {| name := "AbortError" |}, fire (p_timer p) w)
  | Fails e => (Throw e, w)
  | Responds resp =>
      let w1 := cancel (p_timer p) w in
      if negb (ok resp) then
        match resp_text resp with
        | Return t =>
            (Return {| error := true; jr_status := resp_status resp; jr_data := t |}, w1)
        | Throw e => (Throw e, w1)
        end
      else
        let contentType := default "" (content_type resp) in
        let isJson := includes "application/json" contentType in
        match (if isJson then resp_json resp else resp_text resp) with
        | Return d =>
            let normalized := if is_string d then JObj [("raw", d)] else d in
            (Return {| error := false; jr_status := resp_status resp;
                       jr_data := normalized |}, w1)
        | Throw e => (Throw e, w1)
        end
  end.

Definition stale_warning : json :=
  JObj [("warning", JStr "Upstream error, served stale cache")].

(** Lines 76-97: what follows [await job], and the [catch]. *)
Definition handle_finish (p : pending) (r : js_result job_result) (w : World)
  : response * World :=
  match r with
  | Return result =>
      if error result then
        let stale := NodeCache.get (clock w) (p_key p ++ ":stale") (cache w) in
        let failure :=
          send (if Z.eqb (jr_status result) 0 then 502 else jr_status result) None
               (JObj [("error", JStr "Upstream error"); ("detail", jr_data result)]) in
        match stale with
        | Some s =>
            if truthy s then
              (send 200 (Some "STALE") (JObj (set_prop "meta" stale_warning (spread s))), w)
            else (failure, w)
        | None => (failure, w)
        end
      else
        let c1 := NodeCache.set (clock w) (p_key p) (jr_data result) None (cache w) in
        let c2 := NodeCache.set (clock w) (p_key p ++ ":stale") (jr_data result)
                                (Some (CACHETTL cfg * 10)) c1 in
        (send 200 (Some "MISS") (jr_data result), with_cache c2 w)
  | Throw err =>
      let message :=
        if String.eqb (name err) "AbortError" then "Upstream timeout" else "Proxy error" in
      (send 504 None (JObj [("error", JStr message)]), w)
  end.

(** One request served on its own: [wait] is the time the handler is
    suspended at [await job] (queueing in the limiter and the fetch). *)
Definition handler (req : request) (wait : Z) (b : upstream_behaviour) (w : World)
  : response * World :=
  match handle_start req w with
  | (Responded r, w1) => (r, w1)
  | (Submitted p, w1) =>
      let '(r, w2) := job_settle p b (tick wait (fetch_call p w1)) in
      handle_finish p r w2
  end.

End Handler.

(** ** Many requests at once: the limiter and the event loop *)

Section Server.

Variable cfg : config.
Variable JSON_parse : string -> option json.

(** A call of [limit(...)]: the request it belongs to and the locals its
    closure captured. *)
Record job : Type := {
  j_id : nat;
  j_pending : pending
}.

(** Modelled from the spec: the Concurrency Limiter is the p-limit package,
    which is not under src/.  It holds a counter of running tasks and a
    FIFO queue; [in_flight] lists the jobs whose [fetch] has been called
    and whose body has not finished, [answered] the responses sent. *)
Record server : Type := {
  world : World;
  activeCount : nat;
  queue : list job;
  in_flight : list job;
  answered : list (nat * response);
  next_id : nat
}.

Definition start (now : Z) : server :=
  {| world := boot cfg now; activeCount := O; queue := []; in_flight := [];
     answered := []; next_id := O |}.

(** Modelled from the spec: a task is admitted: it takes a slot and its
    body starts, which calls [fetch]. *)
Definition admit_job (j : job) (s : server) : server :=
  {| world := fetch_call (j_pending j) (world s);
     activeCount := S (activeCount s);
     queue := queue s;
     in_flight := in_flight s ++ [j];
     answered := answered s;
     next_id := next_id s |}.

(** Modelled from the spec: the oldest queued task is admitted. *)
Definition dequeue (s : server) : server :=
  match queue s with
  | [] => s
  | j :: rest =>
      admit_job j {| world := world s; activeCount := activeCount s;
                     queue := rest; in_flight := in_flight s;
                     answered := answered s; next_id := next_id s |}
  end.

(** Modelled from the spec: [limit(task)]: the task joins the queue and
    the head of the queue is admitted if fewer than N tasks are running. *)
Definition limit (j : job) (s : server) : server :=
  let s1 := {| world := world s; activeCount := activeCount s;
               queue := queue s ++ [j]; in_flight := in_flight s;
               answered := answered s; next_id := next_id s |} in
  if Nat.ltb (activeCount s1) (CONCURRENCY cfg) then dequeue s1 else s1.

(** Modelled from the spec: a task has settled, by returning or by
    throwing alike: its slot is released and goes to the oldest queued
    task if there is one. *)
Definition next (s : server) : server :=
  dequeue {| world := world s; activeCount := Nat.pred (activeCount s);
             queue := queue s; in_flight := in_flight s;
             answered := answered s; next_id := next_id s |}.

Fixpoint take_job (id : nat) (l : list job) : option (job * list job) :=
  match l with
  | [] => None
  | j :: rest =>
      if Nat.eqb (j_id j) id then Some (j, rest)
      else match take_job id rest with
           | Some (j', rest') => Some (j', j :: rest')
           | None => None
           end
  end.

Definition respond (id : nat) (r : response) (w : World) (s : server) : server :=
  {| world := w; activeCount := activeCount s; queue := queue s;
     in_flight := in_flight s; answered := answered s ++ [(id, r)];
     next_id := next_id s |}.

(** What the event loop runs: a request arrives, the fetch of a running
    job settles, or time passes. *)
Inductive event : Type :=
| Arrive (req : request)
| Settle (id : nat) (b : upstream_behaviour)
| Tick (dt : Z).

Definition step (s : server) (e : event) : server :=
  match e with
  | Arrive req =>
      let id := next_id s in
      let s0 := {| world := world s; activeCount := activeCount s;
                   queue := queue s; in_flight := in_flight s;
                   answered := answered s; next_id := S id |} in
      match handle_start cfg req (world s) with
      | (Responded r, w1) => respond id r w1 s0
      | (Submitted p, w1) =>
          limit {| j_id := id; j_pending := p |}
                {| world := w1; activeCount := activeCount s0;
                   queue := queue s0; in_flight := in_flight s0;
                   answered := answered s0; next_id := next_id s0 |}
      end
  | Settle id b =>
      match take_job id (in_flight s) with
      | None => s
      | Some (j, rest) =>
          let '(r, w1) := job_settle JSON_parse (j_pending j) b (world s) in
          let s1 := next {| world := w1; activeCount := activeCount s;
                            queue := queue s; in_flight := rest;
                            answered := answered s; next_id := next_id s |} in
          let '(resp, w2) := handle_finish cfg (j_pending j) r (world s1) in
          respond id resp w2 s1
      end
  | Tick dt =>
      {| world := tick dt (world s); activeCount := activeCount s;
         queue := queue s; in_flight := in_flight s;
         answered := answered s; next_id := next_id s |}
  end.

Definition run (evs : list event) (s : server) : server :=
  fold_left step evs s.

(** A [Settle] has an effect when its job is in flight. *)
Definition effective (s : server) (e : event) : bool :=
  match e with
  | Settle id _ => bool_decide (is_Some (take_job id (in_flight s)))
  | _ => false
  end.

(** The number of jobs that settle along a run. *)
Fixpoint settles (evs : list event) (s : server) : nat :=
  match evs with
  | [] => O
  | e :: rest =>
      ((if effective s e then 1 else 0) + settles rest (step s e))%nat
  end.

(** The number of requests that come in along a run. *)
Fixpoint arrivals (evs : list event) : nat :=
  match evs with
  | [] => O
  | Arrive _ :: rest => S (arrivals rest)
  | _ :: rest => arrivals rest
  end.

Definition answered_ids (s : server) : list nat := map fst (answered s).

(** A job has been admitted when it is in flight or already answered. *)
Definition admitted (j : job) (s : server) : Prop :=
  j ∈ in_flight s ∨ j_id j ∈ answered_ids s.

(** The counter of the limiter counts the jobs in flight, never exceeds
    the configured concurrency, and is at it whenever a job is queued. *)
Definition limiter_inv (s : server) : Prop :=
  activeCount s = length (in_flight s)
  /\ (activeCount s <= CONCURRENCY cfg)%nat
  /\ (queue s <> [] -> activeCount s = CONCURRENCY cfg).

(** The jobs still owed an answer: those in flight, then those queued. *)
Definition jobs (s : server) : list job := (in_flight s ++ queue s)%list.

(** A URL the proxy may fetch: the target of a whitelisted resource. *)
Definition whitelisted_url (u : string) : Prop :=
  exists r q, isSafeResource r = true /\ u = targetUrl (NZTABASE cfg) r q.

(** The URLs fetched so far and the targets of the queued jobs are all
    targets of whitelisted resources. *)
Definition urls_inv (s : server) : Prop :=
  Forall whitelisted_url (fetched (world s))
  /\ Forall (fun j => whitelisted_url (p_target (j_pending j))) (queue s).

(** An armed timer belongs to a job that is still owed an answer. *)
Definition armed_inv (s : server) : Prop :=
  forall t, timers (world s) !! t = Some Armed ->
            exists j, j ∈ jobs s /\ p_timer (j_pending j) = t.

(** No fetch of the run is rejected for a cause other than the timer. *)
Definition no_transport_failure (evs : list event) : bool :=
  forallb (fun e => match e with
                    | Settle _ (Fails _) => false
                    | _ => true
                    end) evs.

End Server.

(** The characters a serialized query is made of. *)
Definition query_char (c : ascii) : bool :=
  (form_safe c || Ascii.eqb c "+" || Ascii.eqb c "%" || Ascii.eqb c "="
   || Ascii.eqb c "&")%bool.

(** ** The defaults of the source and sample inputs *)

(** Lines 13-18 with no environment variable set. *)
Definition default_config : config :=
  {| NZTABASE := "https://trafficnz.info/service/traffic/rest/4";
     CACHETTL := 30;
     REQUESTTIMEOUTMS := 8000;
     CONCURRENCY := 6 |}.

(** The text [{"foo":1}]. *)
Definition foo_doc : string :=
  let dq := String (ascii_of_nat 34) "" in "{" ++ dq ++ "foo" ++ dq ++ ":1}".

(** [JSON.parse] on the few documents the examples use; it throws on any
    other text. *)
Definition sample_parse (s : string) : option json :=
  if String.eqb s "null" then Some JNull
  else if String.eqb s "false" then Some (JBool false)
  else if String.eqb s "true" then Some (JBool true)
  else if String.eqb s "0" then Some (JNum 0)
  else if String.eqb s "[1]" then Some (JArr [JNum 1])
  else if String.eqb s foo_doc then Some (JObj [("foo", JNum 1)])
  else None.

(** [CONCURRENCY=1] in the environment. *)
Definition single_slot_config : config :=
  {| NZTABASE := "https://trafficnz.info/service/traffic/rest/4";
     CACHETTL := 30;
     REQUESTTIMEOUTMS := 8000;
     CONCURRENCY := 1 |}.

Definition regions_all : request :=
  {| resource := "findRegionsAll"; query := [] |}.

Definition json_reply (code : Z) (text : string) : upstream_response :=
  {| resp_status := code; content_type := Some "application/json; charset=utf-8";
     body_text := Return text |}.

Definition text_reply (code : Z) (text : string) : upstream_response :=
  {| resp_status := code; content_type := Some "text/plain";
     body_text := Return text |}.

(** * Properties *)

(** ** Strings *)

Lemma length_append (a b : string) :
  String.length (a ++ b) = (String.length a + String.length b)%nat.
Proof. induction a as [|c a IH]; simpl; [reflexivity | now rewrite IH]. Qed.

Lemma append_assoc (a b c : string) : (a ++ b) ++ c = a ++ (b ++ c).
Proof. induction a as [|x a IH]; simpl; [reflexivity | now rewrite IH]. Qed.

Lemma append_nil_r (a : string) : a ++ "" = a.
Proof. induction a as [|x a IH]; simpl; [reflexivity | now rewrite IH]. Qed.

Lemma append_inv_head (a b c : string) : a ++ b = a ++ c -> b = c.
Proof. induction a as [|x a IH]; simpl; intros H; [assumption | injection H; auto]. Qed.

(** The stale tier never shares a key with the fresh tier. *)
Lemma stale_key_ne (k : string) : k <> k ++ ":stale".
Proof.
  intros H. apply (f_equal String.length) in H.
  rewrite length_append in H. simpl in H. lia.
Qed.

(** ** Cache store *)

Lemma get_set_same now now' k v t c :
  NodeCache.get now' k (NodeCache.set now k v t c) =
  if Z.ltb now' (now + 1000 * default (NodeCache.stdTTL c) t) then Some v else None.
Proof.
  unfold NodeCache.get, NodeCache.set, NodeCache.live. simpl.
  now rewrite lookup_insert_eq.
Qed.

Lemma get_set_other now now' k k' v t c :
  k <> k' ->
  NodeCache.get now' k' (NodeCache.set now k v t c) = NodeCache.get now' k' c.
Proof.
  intros Hne. unfold NodeCache.get, NodeCache.set. simpl.
  now rewrite lookup_insert_ne.
Qed.

(** ** The handler, path by path *)

Section HandlerFacts.

Variable cfg : config.
Variable JSON_parse : string -> option json.

Lemma handle_start_unsafe req w :
  isSafeResource (resource req) = false ->
  handle_start cfg req w =
  (Responded (send 400 None (JObj [("error", JStr "Unsupported resource")])), w).
Proof. intros H. unfold handle_start. now rewrite H. Qed.

Lemma handle_start_hit req w v :
  isSafeResource (resource req) = true ->
  NodeCache.get (clock w) (cacheKey (resource req) (query req)) (cache w) = Some v ->
  truthy v = true ->
  handle_start cfg req w = (Responded (send 200 (Some "HIT") v), w).
Proof. intros H1 H2 H3. unfold handle_start. now rewrite H1, H2, H3. Qed.

Lemma handle_start_miss req w :
  isSafeResource (resource req) = true ->
  truthy_opt (NodeCache.get (clock w) (cacheKey (resource req) (query req)) (cache w))
    = false ->
  handle_start cfg req w =
  (Submitted {| p_key := cacheKey (resource req) (query req);
                p_target := targetUrl (NZTABASE cfg) (resource req) (query req);
                p_timer := next_timer w |},
   snd (timeoutSignal w)).
Proof.
  intros H1 H2. unfold handle_start. rewrite H1. simpl.
  destruct (NodeCache.get _ _ _) as [v|]; simpl in H2; [rewrite H2|]; reflexivity.
Qed.

(** The three shapes [handle_start] can return. *)
Lemma handle_start_cases req w :
  (exists r, handle_start cfg req w = (Responded r, w)) \/
  handle_start cfg req w =
  (Submitted {| p_key := cacheKey (resource req) (query req);
                p_target := targetUrl (NZTABASE cfg) (resource req) (query req);
                p_timer := next_timer w |},
   snd (timeoutSignal w)).
Proof.
  unfold handle_start.
  destruct (isSafeResource (resource req)); simpl; [|left; eauto].
  destruct (NodeCache.get _ _ _) as [v|]; [destruct (truthy v)|]; eauto.
Qed.

Lemma job_settle_fetched p b w :
  fetched (snd (job_settle JSON_parse p b w)) = fetched w.
Proof.
  assert (Hc : forall id w0, fetched (cancel id w0) = fetched w0).
  { intros id w0. unfold cancel.
    destruct (timers w0 !! id) as [[]|]; reflexivity. }
  assert (Hf : forall id w0, fetched (fire id w0) = fetched w0).
  { intros id w0. unfold fire.
    destruct (timers w0 !! id) as [[]|]; reflexivity. }
  unfold job_settle. destruct b as [resp|e|]; simpl; auto.
  destruct (negb (ok resp)).
  - destruct (resp_text resp); simpl; auto.
  - destruct (if includes _ _ then _ else _); simpl; auto.
Qed.

Lemma handle_finish_fetched p r w :
  fetched (snd (handle_finish cfg p r w)) = fetched w.
Proof.
  unfold handle_finish. destruct r as [res|e]; [|reflexivity].
  destruct (error res); [|reflexivity].
  destruct (NodeCache.get _ _ _) as [s|]; [destruct (truthy s)|]; reflexivity.
Qed.

End HandlerFacts.

(** C2.  A resource name outside the whitelist is answered 400 with the
    body [{error: "Unsupported resource"}]; the process state is left as it
    was, so nothing was handed to [fetch]. *)
Theorem unsupported_resource_rejected cfg JSON_parse req wait b w :
  isSafeResource (resource req) = false ->
  handler cfg JSON_parse req wait b w =
    (send 400 None (JObj [("error", JStr "Unsupported resource")]), w)
  /\ fetched (snd (handler cfg JSON_parse req wait b w)) = fetched w.
Proof.
  intros H. unfold handler. rewrite (handle_start_unsafe cfg req w H).
  split; reflexivity.
Qed.

(** C2 at a concrete request. *)
Lemma unsupported_resource_rejected_witness :
  isSafeResource "deleteEverything" = false /\
  handler default_config sample_parse
          {| resource := "deleteEverything"; query := [("a", "1")] |}
          0 (Responds (json_reply 200 "0")) (boot default_config 0) =
    (send 400 None (JObj [("error", JStr "Unsupported resource")]),
     boot default_config 0).
Proof.
  split; [vm_compute; reflexivity|].
  apply (unsupported_resource_rejected default_config sample_parse
           {| resource := "deleteEverything"; query := [("a", "1")] |}
           0 (Responds (json_reply 200 "0")) (boot default_config 0)).
  vm_compute; reflexivity.
Defined.

Section Paths.

Variable cfg : config.
Variable JSON_parse : string -> option json.

(** A cache-missing request: the job runs and its outcome decides. *)
Lemma handler_miss req wait b w :
  isSafeResource (resource req) = true ->
  truthy_opt (NodeCache.get (clock w) (cacheKey (resource req) (query req)) (cache w))
    = false ->
  let p := {| p_key := cacheKey (resource req) (query req);
              p_target := targetUrl (NZTABASE cfg) (resource req) (query req);
              p_timer := next_timer w |} in
  handler cfg JSON_parse req wait b w =
  handle_finish cfg p
    (fst (job_settle JSON_parse p b (tick wait (fetch_call p (snd (timeoutSignal w))))))
    (snd (job_settle JSON_parse p b (tick wait (fetch_call p (snd (timeoutSignal w)))))).
Proof.
  intros Hs Hm p. unfold handler.
  rewrite (handle_start_miss cfg req w Hs Hm). fold p.
  destruct (job_settle _ _ _ _); reflexivity.
Qed.

(** Whatever happens, one request hands at most one URL to [fetch]. *)
Lemma handler_one_fetch req wait b w :
  fetched (snd (handler cfg JSON_parse req wait b w)) = fetched w \/
  fetched (snd (handler cfg JSON_parse req wait b w)) =
    (fetched w ++ [targetUrl (NZTABASE cfg) (resource req) (query req)])%list.
Proof.
  unfold handler.
  destruct (handle_start_cases cfg req w) as [[r Hr]|Hr]; rewrite Hr; [now left|].
  right.
  match goal with |- context [job_settle ?a ?b ?c ?d] =>
    pose proof (job_settle_fetched a b c d) as Hj;
    destruct (job_settle a b c d) as [jr w2] end.
  simpl in Hj. rewrite handle_finish_fetched, Hj. reflexivity.
Qed.

Lemma job_settle_ok p resp w :
  ok resp = true ->
  job_settle JSON_parse p (Responds resp) w =
  match (if includes "application/json" (default "" (content_type resp))
         then resp_json JSON_parse resp else resp_text resp) with
  | Return d =>
      (Return {| error := false; jr_status := resp_status resp;
                 jr_data := if is_string d then JObj [("raw", d)] else d |},
       cancel (p_timer p) w)
  | Throw e => (Throw e, cancel (p_timer p) w)
  end.
Proof. intros H. unfold job_settle. now rewrite H. Qed.

Lemma cancel_frame id w :
  cache (cancel id w) = cache w /\ clock (cancel id w) = clock w.
Proof. unfold cancel. destruct (timers w !! id) as [[]|]; auto. Qed.

End Paths.

(** The path of a cache miss followed by a 2xx response whose body is read. *)
Lemma miss_success_path cfg JSON_parse req wait resp d w :
  isSafeResource (resource req) = true ->
  truthy_opt (NodeCache.get (clock w) (cacheKey (resource req) (query req)) (cache w))
    = false ->
  NodeCache.stdTTL (cache w) = CACHETTL cfg ->
  ok resp = true ->
  (if includes "application/json" (default "" (content_type resp))
   then resp_json JSON_parse resp else resp_text resp) = Return d ->
  let normalized := if is_string d then JObj [("raw", d)] else d in
  let key := cacheKey (resource req) (query req) in
  let out := handler cfg JSON_parse req wait (Responds resp) w in
  fst out = send 200 (Some "MISS") normalized
  /\ exists fresh stale,
       NodeCache.data (cache (snd out)) !! key = Some fresh
       /\ NodeCache.data (cache (snd out)) !! (key ++ ":stale") = Some stale
       /\ NodeCache.value fresh = normalized
       /\ NodeCache.value stale = normalized
       /\ NodeCache.ttl fresh = CACHETTL cfg
       /\ NodeCache.ttl stale = 10 * NodeCache.ttl fresh.
Proof.
  intros Hs Hm Hstd Hok Hd normalized key out. subst out.
  rewrite (handler_miss cfg JSON_parse req wait (Responds resp) w Hs Hm).
  rewrite (job_settle_ok JSON_parse _ resp _ Hok), Hd. cbn [fst snd].
  unfold handle_finish. cbn [error jr_data p_key fst snd].
  fold key normalized. split; [reflexivity|].
  eexists _, _. cbn [with_cache cache NodeCache.set NodeCache.data].
  split; [|split].
  - rewrite lookup_insert_ne by (symmetry; apply stale_key_ne).
    apply lookup_insert_eq.
  - apply lookup_insert_eq.
  - cbn [NodeCache.value NodeCache.ttl default]. repeat split; try reflexivity.
    + rewrite (proj1 (cancel_frame _ _)). simpl. exact Hstd.
    + rewrite (proj1 (cancel_frame _ _)). simpl. rewrite Hstd.
      unfold id. lia.
Qed.

(** C5.  After a fetch that succeeds (a 2xx response whose body is read),
    the normalized body sits in the fresh entry and in the stale entry of
    the request's key, the stale entry's TTL is ten times the fresh one's,
    and the answer is 200 with [X-Cache: MISS]. *)
Theorem successful_fetch_cached_in_both_tiers cfg JSON_parse req wait resp d w :
  isSafeResource (resource req) = true ->
  truthy_opt (NodeCache.get (clock w) (cacheKey (resource req) (query req)) (cache w))
    = false ->
  NodeCache.stdTTL (cache w) = CACHETTL cfg ->
  ok resp = true ->
  (if includes "application/json" (default "" (content_type resp))
   then resp_json JSON_parse resp else resp_text resp) = Return d ->
  let normalized := if is_string d then JObj [("raw", d)] else d in
  let key := cacheKey (resource req) (query req) in
  let out := handler cfg JSON_parse req wait (Responds resp) w in
  fst out = send 200 (Some "MISS") normalized
  /\ exists fresh stale,
       NodeCache.data (cache (snd out)) !! key = Some fresh
       /\ NodeCache.data (cache (snd out)) !! (key ++ ":stale") = Some stale
       /\ NodeCache.value fresh = normalized
       /\ NodeCache.value stale = normalized
       /\ NodeCache.ttl fresh = CACHETTL cfg
       /\ NodeCache.ttl stale = 10 * NodeCache.ttl fresh.
Proof. exact (miss_success_path cfg JSON_parse req wait resp d w). Qed.

Lemma successful_fetch_cached_in_both_tiers_witness :
  let out := handler default_config sample_parse regions_all 120
                     (Responds (json_reply 200 foo_doc)) (boot default_config 0) in
  fst out = send 200 (Some "MISS") (JObj [("foo", JNum 1)])
  /\ exists fresh stale,
       NodeCache.data (cache (snd out)) !! "traffic:findRegionsAll:" = Some fresh
       /\ NodeCache.data (cache (snd out)) !! "traffic:findRegionsAll::stale"
            = Some stale
       /\ NodeCache.value fresh = JObj [("foo", JNum 1)]
       /\ NodeCache.value stale = JObj [("foo", JNum 1)]
       /\ NodeCache.ttl fresh = 30
       /\ NodeCache.ttl stale = 10 * NodeCache.ttl fresh.
Proof.
  apply (successful_fetch_cached_in_both_tiers default_config sample_parse
           regions_all 120 (json_reply 200 foo_doc) (JObj [("foo", JNum 1)])
           (boot default_config 0));
    vm_compute; reflexivity.
Defined.

(** C7.  A 2xx response whose content type does not contain
    [application/json] has its body taken as text: the document sent and
    the value of both cache entries is [{ raw: text }], the text as it
    came.  With a content type that contains [application/json] the job's
    data comes from [JSON.parse] of the body. *)
Theorem content_type_decides_normalization cfg JSON_parse req wait resp text w :
  isSafeResource (resource req) = true ->
  truthy_opt (NodeCache.get (clock w) (cacheKey (resource req) (query req)) (cache w))
    = false ->
  ok resp = true ->
  body_text resp = Return text ->
  let isJson := includes "application/json" (default "" (content_type resp)) in
  let key := cacheKey (resource req) (query req) in
  let out := handler cfg JSON_parse req wait (Responds resp) w in
  (isJson = false ->
     body (fst out) = JObj [("raw", JStr text)]
     /\ NodeCache.value <$> (NodeCache.data (cache (snd out)) !! key)
          = Some (JObj [("raw", JStr text)])
     /\ NodeCache.value <$> (NodeCache.data (cache (snd out)) !! (key ++ ":stale"))
          = Some (JObj [("raw", JStr text)]))
  /\ (isJson = true ->
        forall p w0,
          fst (job_settle JSON_parse p (Responds resp) w0) =
          match JSON_parse text with
          | Some v =>
              Return {| error := false; jr_status := resp_status resp;
                        jr_data := if is_string v then JObj [("raw", v)] else v |}
          | None => Throw {| name := "SyntaxError" |}
          end).
Proof.
  intros Hs Hm Hok Hbody isJson key out. split.
  - intros Hj.
    assert (Hd : (if includes "application/json" (default "" (content_type resp))
                  then resp_json JSON_parse resp else resp_text resp)
                 = Return (JStr text)).
    { fold isJson. rewrite Hj. unfold resp_text. now rewrite Hbody. }
    unfold out, handler.
    rewrite (handle_start_miss cfg req w Hs Hm).
    rewrite (job_settle_ok JSON_parse _ resp _ Hok), Hd.
    unfold handle_finish.
    cbn [error jr_data p_key fst snd is_string body send with_cache cache
         NodeCache.set NodeCache.data].
    fold key. split; [reflexivity|]. split.
    + rewrite lookup_insert_ne by (symmetry; apply stale_key_ne).
      now rewrite lookup_insert_eq.
    + now rewrite lookup_insert_eq.
  - intros Hj p w0. rewrite (job_settle_ok JSON_parse p resp w0 Hok).
    fold isJson. rewrite Hj. unfold resp_json. rewrite Hbody.
    destruct (JSON_parse text); reflexivity.
Qed.

Lemma content_type_decides_normalization_witness :
  let out := handler default_config sample_parse regions_all 120
                     (Responds (text_reply 200 "<html>busy</html>"))
                     (boot default_config 0) in
  includes "application/json" "text/plain" = false
  /\ body (fst out) = JObj [("raw", JStr "<html>busy</html>")]
  /\ NodeCache.value <$>
       (NodeCache.data (cache (snd out)) !! "traffic:findRegionsAll:")
     = Some (JObj [("raw", JStr "<html>busy</html>")]).
Proof.
  intros out.
  destruct (content_type_decides_normalization default_config sample_parse
              regions_all 120 (text_reply 200 "<html>busy</html>")
              "<html>busy</html>" (boot default_config 0))
    as [Htext _]; try (vm_compute; reflexivity).
  split; [vm_compute; reflexivity|].
  destruct Htext as (Hb & Hf & _); [vm_compute; reflexivity|].
  split; [exact Hb | exact Hf].
Defined.

(** ** Objects: property lists, spread *)

Lemma get_prop_None k props :
  get_prop k props = None <-> k ∉ map fst props.
Proof.
  induction props as [|[k' v'] rest IH]; simpl.
  - split; [intros _; apply not_elem_of_nil | reflexivity].
  - destruct (String.eqb_spec k k') as [->|Hne].
    + split; [discriminate | intros H; exfalso; apply H; left].
    + rewrite IH, not_elem_of_cons. tauto.
Qed.

Lemma set_prop_fresh k v props :
  get_prop k props = None -> set_prop k v props = (props ++ [(k, v)])%list.
Proof.
  induction props as [|[k' v'] rest IH]; simpl; [reflexivity|].
  destruct (String.eqb k k'); [discriminate|].
  intros H. now rewrite IH.
Qed.

Lemma get_prop_set_prop_same k v props :
  get_prop k (set_prop k v props) = Some v.
Proof.
  induction props as [|[k' v'] rest IH]; simpl.
  - now rewrite String.eqb_refl.
  - destruct (String.eqb k k') eqn:E; simpl.
    + now rewrite String.eqb_refl.
    + now rewrite E.
Qed.

Lemma get_prop_set_prop_other k k' v props :
  k' <> k -> get_prop k' (set_prop k v props) = get_prop k' props.
Proof.
  intros Hne. induction props as [|[k0 v0] rest IH]; simpl.
  - apply String.eqb_neq in Hne. now rewrite Hne.
  - destruct (String.eqb_spec k k0) as [->|Hk]; simpl.
    + apply String.eqb_neq in Hne. now rewrite Hne.
    + now rewrite IH.
Qed.

Lemma get_prop_app_l k v props more :
  get_prop k props = Some v -> get_prop k (props ++ more)%list = Some v.
Proof.
  induction props as [|[k' v'] rest IH]; simpl; [discriminate|].
  destruct (String.eqb k k'); auto.
Qed.

(** Copying properties with distinct names, none of them already there,
    appends them in order. *)
Lemma copy_props_fresh props acc :
  NoDup (map fst (acc ++ props)%list) ->
  fold_left (fun a kv => set_prop (fst kv) (snd kv) a) props acc
  = (acc ++ props)%list.
Proof.
  revert acc. induction props as [|[k v] rest IH]; intros acc Hnd; simpl.
  - now rewrite app_nil_r.
  - rewrite set_prop_fresh.
    + rewrite IH; rewrite <- app_assoc; [reflexivity | exact Hnd].
    + apply get_prop_None. rewrite map_app in Hnd. simpl in Hnd.
      apply NoDup_app in Hnd as (_ & Hdis & _).
      intros Hin. apply (Hdis k Hin). left.
Qed.

Lemma spread_object props :
  NoDup (map fst props) -> spread (JObj props) = props.
Proof. intros H. unfold spread. simpl. now rewrite copy_props_fresh. Qed.

Section StaleBody.

Variable cfg : config.

Lemma handle_finish_stale p jr w s :
  error jr = true ->
  NodeCache.get (clock w) (p_key p ++ ":stale") (cache w) = Some s ->
  truthy s = true ->
  handle_finish cfg p (Return jr) w =
  (send 200 (Some "STALE") (JObj (set_prop "meta" stale_warning (spread s))), w).
Proof. intros He Hg Ht. unfold handle_finish. now rewrite He, Hg, Ht. Qed.

Lemma handle_finish_no_stale p jr w :
  error jr = true ->
  truthy_opt (NodeCache.get (clock w) (p_key p ++ ":stale") (cache w)) = false ->
  handle_finish cfg p (Return jr) w =
  (send (if Z.eqb (jr_status jr) 0 then 502 else jr_status jr) None
        (JObj [("error", JStr "Upstream error"); ("detail", jr_data jr)]), w).
Proof.
  intros He Hg. unfold handle_finish. rewrite He.
  destruct (NodeCache.get _ _ _) as [s|]; simpl in Hg; [rewrite Hg|]; reflexivity.
Qed.

End StaleBody.

(** C10.  When the stale value is served the body is
    [{ ...stale, meta: { warning } }].  An object without a [meta] field
    keeps all its fields, in place, and gains [meta]; an object with a
    [meta] field has it replaced by the warning object and keeps the other
    fields; a stale value that is not an object comes back as an object,
    so not in the shape it had. *)
Theorem stale_body_is_spread_with_meta cfg p jr w s :
  error jr = true ->
  NodeCache.get (clock w) (p_key p ++ ":stale") (cache w) = Some s ->
  truthy s = true ->
  let out := handle_finish cfg p (Return jr) w in
  fst out = send 200 (Some "STALE") (JObj (set_prop "meta" stale_warning (spread s)))
  /\ (forall props,
        s = JObj props -> NoDup (map fst props) -> get_prop "meta" props = None ->
        body (fst out) = JObj (props ++ [("meta", stale_warning)])%list
        /\ forall k v, get_prop k props = Some v ->
                       get_prop k (props ++ [("meta", stale_warning)])%list = Some v)
  /\ (forall props old,
        s = JObj props -> NoDup (map fst props) -> get_prop "meta" props = Some old ->
        exists props',
          body (fst out) = JObj props'
          /\ get_prop "meta" props' = Some stale_warning
          /\ forall k, k <> "meta" -> get_prop k props' = get_prop k props)
  /\ (is_object s = false ->
        is_object (body (fst out)) = true /\ body (fst out) <> s).
Proof.
  intros He Hg Ht out. unfold out.
  rewrite (handle_finish_stale cfg p jr w s He Hg Ht). cbn [fst body send].
  split; [reflexivity|]. split; [|split].
  - intros props -> Hnd Hmeta. rewrite (spread_object props Hnd).
    rewrite (set_prop_fresh _ _ _ Hmeta). split; [reflexivity|].
    intros k v Hk. now apply get_prop_app_l.
  - intros props old -> Hnd Hmeta. rewrite (spread_object props Hnd).
    eexists. split; [reflexivity|]. split.
    + apply get_prop_set_prop_same.
    + intros k Hk. now apply get_prop_set_prop_other.
  - intros Hobj. split; [reflexivity|].
    intros Heq. rewrite <- Heq in Hobj. discriminate.
Qed.

Lemma stale_body_is_spread_with_meta_witness :
  let w := with_cache
             (NodeCache.set 0 "traffic:findRegionsAll::stale"
                            (JObj [("foo", JNum 1)]) (Some 300)
                            (NodeCache.create 30))
             (tick 31000 (boot default_config 0)) in
  let p := {| p_key := "traffic:findRegionsAll:"; p_target := "u"; p_timer := O |} in
  let jr := {| error := true; jr_status := 500; jr_data := JStr "boom" |} in
  fst (handle_finish default_config p (Return jr) w) =
  send 200 (Some "STALE")
       (JObj [("foo", JNum 1);
              ("meta", JObj [("warning", JStr "Upstream error, served stale cache")])]).
Proof.
  intros w p jr.
  destruct (stale_body_is_spread_with_meta default_config p jr w
              (JObj [("foo", JNum 1)])) as [H _];
    [reflexivity | vm_compute; reflexivity | reflexivity | exact H].
Defined.

(** ** Fresh hits and repeated requests *)

Section Repeat.

Variable cfg : config.
Variable JSON_parse : string -> option json.

(** The state a cache-missing request leaves after a 2xx response. *)
Lemma handler_miss_success req wait resp d w :
  isSafeResource (resource req) = true ->
  truthy_opt (NodeCache.get (clock w) (cacheKey (resource req) (query req)) (cache w))
    = false ->
  ok resp = true ->
  (if includes "application/json" (default "" (content_type resp))
   then resp_json JSON_parse resp else resp_text resp) = Return d ->
  let normalized := if is_string d then JObj [("raw", d)] else d in
  let key := cacheKey (resource req) (query req) in
  let p := {| p_key := key;
              p_target := targetUrl (NZTABASE cfg) (resource req) (query req);
              p_timer := next_timer w |} in
  let w2 := cancel (next_timer w) (tick wait (fetch_call p (snd (timeoutSignal w)))) in
  handler cfg JSON_parse req wait (Responds resp) w =
  (send 200 (Some "MISS") normalized,
   with_cache
     (NodeCache.set (clock w + wait) (key ++ ":stale") normalized
                    (Some (CACHETTL cfg * 10))
        (NodeCache.set (clock w + wait) key normalized None (cache w)))
     w2).
Proof.
  intros Hs Hm Hok Hd normalized key p w2.
  rewrite (handler_miss cfg JSON_parse req wait (Responds resp) w Hs Hm).
  rewrite (job_settle_ok JSON_parse _ resp _ Hok), Hd. cbn [fst snd].
  unfold handle_finish. cbn [error jr_data p_key p_timer].
  fold key normalized p w2.
  destruct (cancel_frame (next_timer w)
              (tick wait (fetch_call p (snd (timeoutSignal w))))) as [Hc Ht].
  fold w2 in Hc, Ht. rewrite Hc, Ht. reflexivity.
Qed.

(** A response marked HIT comes from the cache alone: the process state,
    and with it the list of fetched URLs, is untouched. *)
Lemma hit_leaves_world req wait b w :
  x_cache (fst (handler cfg JSON_parse req wait b w)) = Some "HIT" ->
  snd (handler cfg JSON_parse req wait b w) = w.
Proof.
  unfold handler.
  destruct (handle_start_cases cfg req w) as [[r Hr]|Hr]; rewrite Hr;
    [reflexivity|].
  destruct (job_settle _ _ _ _) as [jr w2]. unfold handle_finish.
  destruct jr as [res|e]; [|discriminate].
  destruct (error res); [|discriminate].
  destruct (NodeCache.get _ _ _) as [s|]; [destruct (truthy s)|]; discriminate.
Qed.

(** After a MISS that stored a truthy value, the same request repeated
    before the fresh TTL has elapsed is a HIT with that value, and nothing
    is fetched. *)
Lemma repeat_within_ttl_hits req wait resp d w dt wait' b' :
  isSafeResource (resource req) = true ->
  truthy_opt (NodeCache.get (clock w) (cacheKey (resource req) (query req)) (cache w))
    = false ->
  ok resp = true ->
  (if includes "application/json" (default "" (content_type resp))
   then resp_json JSON_parse resp else resp_text resp) = Return d ->
  let normalized := if is_string d then JObj [("raw", d)] else d in
  truthy normalized = true ->
  dt < 1000 * NodeCache.stdTTL (cache w) ->
  let w' := tick dt (snd (handler cfg JSON_parse req wait (Responds resp) w)) in
  handler cfg JSON_parse req wait' b' w' = (send 200 (Some "HIT") normalized, w').
Proof.
  intros Hs Hm Hok Hd normalized Ht Hdt w'.
  unfold w'. rewrite (handler_miss_success req wait resp d w Hs Hm Hok Hd).
  cbn [snd]. fold normalized.
  match goal with |- handler _ _ _ _ _ ?W = _ => set (w1 := W) end.
  unfold handler.
  rewrite (handle_start_hit cfg req w1 normalized Hs); [reflexivity| |exact Ht].
  assert (Hclock : clock w1 = clock w + wait + dt).
  { unfold w1. simpl.
    now rewrite (proj2 (cancel_frame _ _)). }
  unfold w1 at 2. cbn [tick with_cache cache]. rewrite Hclock.
  rewrite get_set_other by (symmetry; apply stale_key_ne).
  rewrite get_set_same. cbn [default].
  destruct (Z.ltb_spec (clock w + wait + dt)
                       (clock w + wait + 1000 * NodeCache.stdTTL (cache w)));
    [reflexivity | lia].
Qed.

End Repeat.

(** C3.  The body [0] with a JSON content type is fetched, stored, and
    answered as a MISS; the same request repeated at once finds the stored
    [0], which [if (cached)] takes for a miss: it is answered as a MISS
    again and a second URL goes to [fetch]. *)
Theorem falsy_value_is_fetched_again :
  let first := handler default_config sample_parse regions_all 100
                       (Responds (json_reply 200 "0")) (boot default_config 0) in
  let second := handler default_config sample_parse regions_all 100
                        (Responds (json_reply 200 "0")) (snd first) in
  fst first = send 200 (Some "MISS") (JNum 0)
  /\ NodeCache.get (clock (snd first)) "traffic:findRegionsAll:" (cache (snd first))
     = Some (JNum 0)
  /\ fst second = send 200 (Some "MISS") (JNum 0)
  /\ length (fetched (snd first)) = 1%nat
  /\ length (fetched (snd second)) = 2%nat.
Proof. vm_compute. repeat split; reflexivity. Qed.

(** The same request with the body [{"foo":1}]: the repeat is a HIT. *)
Example truthy_value_is_hit :
  let first := handler default_config sample_parse regions_all 100
                       (Responds (json_reply 200 foo_doc)) (boot default_config 0) in
  let second := handler default_config sample_parse regions_all 100
                        TimesOut (tick 29000 (snd first)) in
  fst second = send 200 (Some "HIT") (JObj [("foo", JNum 1)])
  /\ length (fetched (snd second)) = 1%nat.
Proof. vm_compute. repeat split; reflexivity. Qed.

(** ** The fallback tree *)

Section Fallback.

Variable cfg : config.
Variable JSON_parse : string -> option json.

(** A rejected [fetch] (or any throw of the job) ends in the [catch]: 504,
    whatever the cache holds. *)
Lemma handler_throw req wait b w e w2 :
  isSafeResource (resource req) = true ->
  truthy_opt (NodeCache.get (clock w) (cacheKey (resource req) (query req)) (cache w))
    = false ->
  job_settle JSON_parse
    {| p_key := cacheKey (resource req) (query req);
       p_target := targetUrl (NZTABASE cfg) (resource req) (query req);
       p_timer := next_timer w |} b
    (tick wait (fetch_call
       {| p_key := cacheKey (resource req) (query req);
          p_target := targetUrl (NZTABASE cfg) (resource req) (query req);
          p_timer := next_timer w |} (snd (timeoutSignal w)))) = (Throw e, w2) ->
  handler cfg JSON_parse req wait b w =
  (send 504 None
        (JObj [("error",
                JStr (if String.eqb (name e) "AbortError"
                      then "Upstream timeout" else "Proxy error"))]), w2).
Proof.
  intros Hs Hm Hj.
  rewrite (handler_miss cfg JSON_parse req wait b w Hs Hm), Hj. reflexivity.
Qed.

(** The stale lookup of a request that waited [wait] reads the cache as it
    was when the request came in, at the later time. *)
Lemma settle_world_frame p b w :
  cache (snd (job_settle JSON_parse p b w)) = cache w
  /\ clock (snd (job_settle JSON_parse p b w)) = clock w.
Proof.
  assert (Hf : forall id w0, cache (fire id w0) = cache w0
                             /\ clock (fire id w0) = clock w0).
  { intros id w0. unfold fire. destruct (timers w0 !! id) as [[]|]; auto. }
  unfold job_settle. destruct b as [resp|e|]; simpl; auto.
  destruct (negb (ok resp)).
  - destruct (resp_text resp); simpl; apply cancel_frame.
  - destruct (if includes _ _ then _ else _); simpl; apply cancel_frame.
Qed.

End Fallback.

(** C1, as amended.  After a non-2xx response whose body is read, the
    stale entry of the same key is looked up: a truthy stale value is
    served with 200, the warning and [X-Cache: STALE]; with no stale entry
    the answer has the upstream status (502 for a status of 0) and the
    body [{error: "Upstream error", detail}].  After a timeout or a
    transport failure with no stale entry the answer is 504, with
    "Upstream timeout" for an abort and "Proxy error" otherwise. *)
Theorem fallback_after_failed_fetch cfg JSON_parse req wait w :
  isSafeResource (resource req) = true ->
  truthy_opt (NodeCache.get (clock w) (cacheKey (resource req) (query req)) (cache w))
    = false ->
  let stale := NodeCache.get (clock w + wait)
                 (cacheKey (resource req) (query req) ++ ":stale") (cache w) in
  (forall resp text,
      ok resp = false -> body_text resp = Return text ->
      let out := handler cfg JSON_parse req wait (Responds resp) w in
      (forall s, stale = Some s -> truthy s = true ->
                 fst out = send 200 (Some "STALE")
                                (JObj (set_prop "meta" stale_warning (spread s))))
      /\ (stale = None ->
          fst out = send (if Z.eqb (resp_status resp) 0 then 502 else resp_status resp)
                         None
                         (JObj [("error", JStr "Upstream error");
                                ("detail", JStr text)])))
  /\ (stale = None ->
      fst (handler cfg JSON_parse req wait TimesOut w) =
      send 504 None (JObj [("error", JStr "Upstream timeout")]))
  /\ (forall e,
        stale = None -> name e <> "AbortError" ->
        fst (handler cfg JSON_parse req wait (Fails e) w) =
        send 504 None (JObj [("error", JStr "Proxy error")])).
Proof.
  intros Hs Hm stale. split; [|split].
  - intros resp text Hok Hbody out. unfold out.
    rewrite (handler_miss cfg JSON_parse req wait (Responds resp) w Hs Hm).
    unfold job_settle, resp_text. rewrite Hok, Hbody. cbn [negb fst snd].
    set (p := {| p_key := _; p_target := _; p_timer := _ |}).
    set (jr := {| error := true; jr_status := _; jr_data := _ |}).
    set (w2 := cancel (p_timer p) _).
    assert (Hst : NodeCache.get (clock w2) (p_key p ++ ":stale") (cache w2) = stale).
    { unfold w2. rewrite (proj1 (cancel_frame _ _)), (proj2 (cancel_frame _ _)).
      reflexivity. }
    split.
    + intros s Hsome Ht.
      rewrite (handle_finish_stale cfg p jr w2 s); [reflexivity|reflexivity| |exact Ht].
      now rewrite Hst.
    + intros Hnone.
      rewrite (handle_finish_no_stale cfg p jr w2); [reflexivity|reflexivity|].
      now rewrite Hst, Hnone.
  - intros _.
    rewrite (handler_throw cfg JSON_parse req wait TimesOut w _ _ Hs Hm eq_refl).
    reflexivity.
  - intros e _ Hne.
    rewrite (handler_throw cfg JSON_parse req wait (Fails e) w _ _ Hs Hm eq_refl).
    apply String.eqb_neq in Hne. cbn [fst]. now rewrite Hne.
Qed.

Lemma fallback_after_failed_fetch_witness :
  let w := tick 31000
             (snd (handler default_config sample_parse regions_all 100
                           (Responds (json_reply 200 foo_doc))
                           (boot default_config 0))) in
  fst (handler default_config sample_parse regions_all 100
               (Responds (text_reply 500 "boom")) w) =
  send 200 (Some "STALE")
       (JObj [("foo", JNum 1);
              ("meta", JObj [("warning", JStr "Upstream error, served stale cache")])]).
Proof.
  intros w.
  assert (Hs : isSafeResource (resource regions_all) = true)
    by (vm_compute; reflexivity).
  assert (Hm : truthy_opt
                 (NodeCache.get (clock w)
                    (cacheKey (resource regions_all) (query regions_all))
                    (cache w)) = false)
    by (vm_compute; reflexivity).
  destruct (fallback_after_failed_fetch default_config sample_parse regions_all
              100 w Hs Hm) as [H _].
  destruct (H (text_reply 500 "boom") "boom" eq_refl eq_refl) as [Hstale _].
  apply (Hstale (JObj [("foo", JNum 1)])); vm_compute; reflexivity.
Defined.

(** C1 as stated fails: with nothing in the stale tier, a fetch that times
    out is answered 504, not 502, and the body is not the "Upstream error"
    document. *)
Lemma timeout_without_stale_answers_504 :
  let w := boot default_config 0 in
  let out := handler default_config sample_parse regions_all 8000 TimesOut w in
  NodeCache.get (clock (snd out)) "traffic:findRegionsAll::stale" (cache (snd out))
    = None
  /\ fst out = send 504 None (JObj [("error", JStr "Upstream timeout")])
  /\ status (fst out) <> 502.
Proof. vm_compute. repeat split; discriminate. Qed.

(** With a live stale entry, a timeout and a transport failure are still
    answered 504: the [catch] does not read the stale tier. *)
Example rejected_fetch_bypasses_stale :
  let w := tick 31000
             (snd (handler default_config sample_parse regions_all 100
                           (Responds (json_reply 200 foo_doc))
                           (boot default_config 0))) in
  NodeCache.get (clock w + 8000) "traffic:findRegionsAll::stale" (cache w)
    = Some (JObj [("foo", JNum 1)])
  /\ fst (handler default_config sample_parse regions_all 8000 TimesOut w)
     = send 504 None (JObj [("error", JStr "Upstream timeout")])
  /\ fst (handler default_config sample_parse regions_all 50
                  (Fails {| name := "TypeError" |}) w)
     = send 504 None (JObj [("error", JStr "Proxy error")]).
Proof. vm_compute. repeat split; reflexivity. Qed.

(** ** The timeout timer *)

Section Timer.

Variable cfg : config.
Variable JSON_parse : string -> option json.

(** The timer of a cache-missing request, once the response is sent:
    cleared after a response from upstream, fired after a timeout, and
    still armed after a transport failure. *)
Lemma timer_after_request req wait b w :
  isSafeResource (resource req) = true ->
  truthy_opt (NodeCache.get (clock w) (cacheKey (resource req) (query req)) (cache w))
    = false ->
  timers (snd (handler cfg JSON_parse req wait b w)) !! next_timer w =
  Some match b with
       | Responds _ => Cleared
       | TimesOut => Fired
       | Fails _ => Armed
       end.
Proof.
  assert (Hfin : forall p r w0, timers (snd (handle_finish cfg p r w0)) = timers w0).
  { intros p r w0. unfold handle_finish. destruct r as [res|e]; [|reflexivity].
    destruct (error res); [|reflexivity].
    destruct (NodeCache.get _ _ _) as [s|]; [destruct (truthy s)|]; reflexivity. }
  intros Hs Hm.
  rewrite (handler_miss cfg JSON_parse req wait b w Hs Hm). rewrite Hfin.
  assert (Harmed : forall p,
    timers (tick wait (fetch_call p (snd (timeoutSignal w)))) !! next_timer w
    = Some Armed).
  { intros p. simpl. apply lookup_insert_eq. }
  unfold job_settle. destruct b as [resp|e|].
  - assert (Hc : forall p, timers (cancel (next_timer w)
                     (tick wait (fetch_call p (snd (timeoutSignal w)))))
                   !! next_timer w = Some Cleared).
    { intros p. unfold cancel. rewrite Harmed. simpl. apply lookup_insert_eq. }
    cbn [p_timer]. destruct (negb (ok resp)).
    + destruct (resp_text resp); cbn [snd]; apply Hc.
    + destruct (if includes _ _ then _ else _); cbn [snd]; apply Hc.
  - cbn [snd]. apply Harmed.
  - cbn [snd p_timer]. unfold fire. rewrite Harmed. simpl. apply lookup_insert_eq.
Qed.

End Timer.

(** C6.  A fetch that is rejected by a transport failure before the timer
    fires: the response is sent and the timer made for that fetch is still
    armed; [cancel] was never called. *)
Theorem transport_failure_leaves_timer_armed :
  let w := boot default_config 0 in
  let out := handler default_config sample_parse regions_all 50
                     (Fails {| name := "TypeError" |}) w in
  fst out = send 504 None (JObj [("error", JStr "Proxy error")])
  /\ timers w !! O = None
  /\ timers (snd out) !! O = Some Armed.
Proof. vm_compute. repeat split; reflexivity. Qed.

(** ** Cache keys *)

Lemma all_chars_app P a b :
  all_chars P (a ++ b) = (all_chars P a && all_chars P b)%bool.
Proof.
  induction a as [|c a IH]; simpl; [reflexivity|].
  now rewrite IH, andb_assoc.
Qed.

Ltac each_byte a :=
  destruct a as [[] [] [] [] [] [] [] []].

Lemma decode_head_encode a rest :
  decode_head (encode_byte a ++ rest) = Some (a, rest).
Proof. each_byte a; reflexivity. Qed.

(** An encoded byte starts with a character that is no separator. *)
Lemma encode_byte_head a :
  exists c tl, encode_byte a = String c tl /\ delim c = false.
Proof. each_byte a; eexists _, _; split; reflexivity. Qed.

Lemma encode_byte_no_colon a : all_chars not_colon (encode_byte a) = true.
Proof. each_byte a; reflexivity. Qed.

Lemma urlencode_no_colon s : all_chars not_colon (urlencode s) = true.
Proof.
  induction s as [|a s IH]; simpl; [reflexivity|].
  now rewrite all_chars_app, encode_byte_no_colon, IH.
Qed.

Lemma urlencode_inj_stop s1 : forall s2 r1 r2,
  stop r1 -> stop r2 ->
  urlencode s1 ++ r1 = urlencode s2 ++ r2 -> s1 = s2 /\ r1 = r2.
Proof.
  induction s1 as [|a1 s1 IH]; intros [|a2 s2] r1 r2 H1 H2 E; simpl in E.
  - now split.
  - rewrite append_assoc in E.
    destruct (encode_byte_head a2) as (c & tl & Hc & Hd). rewrite Hc in E.
    subst r1. simpl in H1. congruence.
  - rewrite append_assoc in E.
    destruct (encode_byte_head a1) as (c & tl & Hc & Hd). rewrite Hc in E.
    subst r2. simpl in H2. congruence.
  - rewrite !append_assoc in E.
    apply (f_equal decode_head) in E. rewrite !decode_head_encode in E.
    injection E as -> E. destruct (IH _ _ _ H1 H2 E) as [-> ->]. now split.
Qed.

Lemma toString_cons p rest :
  URLSearchParams_toString (p :: rest) =
  urlencode (fst p) ++ String "=" (urlencode (snd p) ++ more_pairs rest).
Proof.
  destruct rest as [|p' rest].
  - change (URLSearchParams_toString [p]) with (serialize_pair p).
    unfold serialize_pair, more_pairs. now rewrite append_nil_r.
  - change (URLSearchParams_toString (p :: p' :: rest))
      with (serialize_pair p ++ "&" ++ URLSearchParams_toString (p' :: rest)).
    unfold serialize_pair, more_pairs. now rewrite append_assoc.
Qed.

Lemma stop_more_pairs rest : stop (more_pairs rest).
Proof. destruct rest; simpl; auto. Qed.

(** The serializer is injective on lists of pairs. *)
Lemma toString_inj q1 : forall q2,
  URLSearchParams_toString q1 = URLSearchParams_toString q2 -> q1 = q2.
Proof.
  induction q1 as [|[k1 v1] q1 IH]; intros [|[k2 v2] q2] E.
  - reflexivity.
  - rewrite toString_cons in E. cbn [fst snd] in E.
    destruct (urlencode_inj_stop "" k2 ""
                (String "=" (urlencode v2 ++ more_pairs q2)) I eq_refl E) as [_ H].
    discriminate.
  - rewrite toString_cons in E. cbn [fst snd] in E. symmetry in E.
    destruct (urlencode_inj_stop "" k1 ""
                (String "=" (urlencode v1 ++ more_pairs q1)) I eq_refl E) as [_ H].
    discriminate.
  - rewrite !toString_cons in E. cbn [fst snd] in E.
    destruct (urlencode_inj_stop k1 k2
                (String "=" (urlencode v1 ++ more_pairs q1))
                (String "=" (urlencode v2 ++ more_pairs q2)) eq_refl eq_refl E)
      as [-> E1].
    injection E1 as E1.
    destruct (urlencode_inj_stop _ _ _ _ (stop_more_pairs q1) (stop_more_pairs q2) E1)
      as [-> E2].
    f_equal. destruct q1 as [|p1 q1], q2 as [|p2 q2]; try discriminate.
    + reflexivity.
    + simpl in E2. injection E2 as E2. now apply IH.
Qed.

Lemma toString_no_colon q : all_chars not_colon (URLSearchParams_toString q) = true.
Proof.
  induction q as [|p q IH]; [reflexivity|].
  rewrite toString_cons, all_chars_app. simpl.
  rewrite all_chars_app, !urlencode_no_colon. simpl.
  destruct q as [|p' q]; [reflexivity|]. simpl. exact IH.
Qed.

(** A text is cut in one way only at its last colon. *)
Lemma split_last_colon r1 : forall r2 q1 q2,
  all_chars not_colon q1 = true -> all_chars not_colon q2 = true ->
  r1 ++ String ":" q1 = r2 ++ String ":" q2 -> r1 = r2 /\ q1 = q2.
Proof.
  induction r1 as [|c1 r1 IH]; intros [|c2 r2] q1 q2 H1 H2 E; simpl in E.
  - injection E as E. now split.
  - injection E as Ec E. subst q1.
    rewrite all_chars_app in H1. simpl in H1.
    now rewrite andb_false_r in H1.
  - injection E as Ec E. subst q2.
    rewrite all_chars_app in H2. simpl in H2.
    now rewrite andb_false_r in H2.
  - injection E as -> E. destruct (IH _ _ _ H1 H2 E) as [-> ->]. now split.
Qed.

Lemma cacheKey_inj r1 q1 r2 q2 :
  cacheKey r1 q1 = cacheKey r2 q2 -> r1 = r2 /\ q1 = q2.
Proof.
  unfold cacheKey. intros E. apply append_inv_head in E.
  change (":" ++ ?x) with (String ":" x) in E.
  destruct (split_last_colon _ _ _ _ (toString_no_colon q1) (toString_no_colon q2) E)
    as [-> Eq].
  split; [reflexivity | now apply toString_inj].
Qed.

(** C4, as amended.  Two requests derive the same cache key exactly when
    they have the same resource and [req.query] gives [URLSearchParams]
    the same sequence of entries (names in the object's enumeration
    order, values as strings): any difference in the resource, or in the
    name, the value or the place of an entry, gives another key. *)
Theorem cacheKey_same_iff_same_request r1 q1 r2 q2 :
  cacheKey r1 q1 = cacheKey r2 q2 <-> r1 = r2 /\ q1 = q2.
Proof.
  split; [apply cacheKey_inj | intros [-> ->]; reflexivity].
Qed.

Lemma cacheKey_same_iff_same_request_witness :
  cacheKey "findCamerasByRegion" [("regionId", "7")]
  <> cacheKey "findCamerasByRegion" [("regionId", "8")].
Proof.
  intros E.
  apply (cacheKey_same_iff_same_request
           "findCamerasByRegion" [("regionId", "7")]
           "findCamerasByRegion" [("regionId", "8")]) in E.
  destruct E as [_ E]. discriminate E.
Defined.

(** C4 as stated fails: the same two parameters, enumerated in the other
    order (as the objects [{lat, lon}] and [{lon, lat}] are), give another
    key. *)
Lemma parameter_order_changes_key :
  let q1 := [("lat", "-36.8"); ("lon", "174.7")] in
  let q2 := [("lon", "174.7"); ("lat", "-36.8")] in
  q1 ≡ₚ q2
  /\ cacheKey "findCamerasWithinBounds" q1
     = "traffic:findCamerasWithinBounds:lat=-36.8&lon=174.7"
  /\ cacheKey "findCamerasWithinBounds" q2
     = "traffic:findCamerasWithinBounds:lon=174.7&lat=-36.8"
  /\ cacheKey "findCamerasWithinBounds" q1 <> cacheKey "findCamerasWithinBounds" q2.
Proof.
  split; [apply perm_swap|].
  split; [reflexivity|]. split; [reflexivity|]. discriminate.
Qed.

(** ** The limiter *)

Section Limiter.

Variable cfg : config.
Variable JSON_parse : string -> option json.

Local Abbreviation step1 := (step cfg JSON_parse).
Local Abbreviation runs := (run cfg JSON_parse).
Local Abbreviation count := (settles cfg JSON_parse).
Local Abbreviation inv := (limiter_inv cfg).

Lemma take_job_spec id l j rest :
  take_job id l = Some (j, rest) ->
  j_id j = id
  /\ length l = S (length rest)
  /\ (forall x, x ∈ l -> x = j \/ x ∈ rest).
Proof.
  revert j rest. induction l as [|y l IH]; intros j rest H; simpl in H.
  - discriminate.
  - destruct (Nat.eqb_spec (j_id y) id) as [Hy|Hy].
    + injection H as <- <-. repeat split; auto.
      intros x Hx. apply elem_of_cons in Hx. tauto.
    + destruct (take_job id l) as [[j' rest']|]; [|discriminate].
      injection H as <- <-.
      destruct (IH j' rest' eq_refl) as (Hid & Hlen & Hin).
      repeat split; [exact Hid | simpl; now rewrite Hlen |].
      intros x Hx. apply elem_of_cons in Hx as [->|Hx].
      * right. left.
      * destruct (Hin x Hx) as [->|Hr]; [now left | right; now right].
Qed.

Lemma take_job_found l j :
  j ∈ l -> is_Some (take_job (j_id j) l).
Proof.
  induction l as [|y l IH]; intros Hj.
  - now apply elem_of_nil in Hj.
  - simpl. destruct (Nat.eqb_spec (j_id y) (j_id j)) as [_|Hne]; [eauto|].
    apply elem_of_cons in Hj as [->|Hj]; [congruence|].
    destruct (IH Hj) as [[j' rest'] ->]. eauto.
Qed.

Ltac limiter_simpl :=
  unfold limiter_inv, admit_job;
  cbn [activeCount queue in_flight world answered next_id].

Lemma limiter_inv_start now : inv (start cfg now).
Proof. unfold start. limiter_simpl. repeat split; simpl; [lia | congruence]. Qed.

Lemma limiter_inv_limit j s :
  inv s -> inv (limit cfg j s).
Proof.
  intros (Hc & Hle & Hq). unfold limit. cbn [activeCount].
  destruct (Nat.ltb_spec (activeCount s) (CONCURRENCY cfg)) as [Hlt|Hge].
  - assert (Hnil : queue s = []).
    { destruct (queue s) as [|x q] eqn:E; [reflexivity|].
      assert (activeCount s = CONCURRENCY cfg) by (apply Hq; congruence). lia. }
    unfold dequeue. cbn [queue]. rewrite Hnil. cbn [app].
    limiter_simpl. rewrite length_app. simpl. repeat split; [lia | lia | congruence].
  - limiter_simpl. repeat split; [exact Hc | exact Hle | intros _; lia].
Qed.

Lemma limiter_inv_next w s id j rest :
  inv s ->
  take_job id (in_flight s) = Some (j, rest) ->
  inv (next {| world := w; activeCount := activeCount s; queue := queue s;
                       in_flight := rest; answered := answered s;
                       next_id := next_id s |}).
Proof.
  intros (Hc & Hle & Hq) Ht.
  destruct (take_job_spec _ _ _ _ Ht) as (_ & Hlen & _).
  unfold next, dequeue. cbn [queue activeCount world in_flight answered next_id].
  destruct (queue s) as [|x q] eqn:E.
  - limiter_simpl. repeat split; [lia | lia | congruence].
  - assert (Hfull : activeCount s = CONCURRENCY cfg) by (apply Hq; congruence).
    limiter_simpl. rewrite length_app. simpl. repeat split; [lia | lia | intros _; lia].
Qed.

(** The two shapes of a step that takes in a request. *)
Lemma step_arrive req s :
  (exists r, step1 s (Arrive req) =
             respond (next_id s) r (world s)
               {| world := world s; activeCount := activeCount s; queue := queue s;
                  in_flight := in_flight s; answered := answered s;
                  next_id := S (next_id s) |})
  \/ (exists p w1,
        fetched w1 = fetched (world s)
        /\ step1 s (Arrive req) =
           limit cfg {| j_id := next_id s; j_pending := p |}
             {| world := w1; activeCount := activeCount s; queue := queue s;
                in_flight := in_flight s; answered := answered s;
                next_id := S (next_id s) |}).
Proof.
  unfold step.
  destruct (handle_start_cases cfg req (world s)) as [[r Hr]|Hr]; rewrite Hr.
  - left. eauto.
  - right. eexists _, _. split; [|reflexivity]. reflexivity.
Qed.

(** The shape of a step that settles a job in flight. *)
Lemma step_settle id b s j rest :
  take_job id (in_flight s) = Some (j, rest) ->
  exists w1 w2 resp,
    let s1 := next {| world := w1; activeCount := activeCount s; queue := queue s;
                      in_flight := rest; answered := answered s;
                      next_id := next_id s |} in
    fetched w1 = fetched (world s)
    /\ fetched w2 = fetched (world s1)
    /\ step1 s (Settle id b) = respond id resp w2 s1.
Proof.
  intros Ht. unfold step. rewrite Ht.
  pose proof (job_settle_fetched JSON_parse (j_pending j) b (world s)) as Hj.
  destruct (job_settle JSON_parse (j_pending j) b (world s)) as [r w1].
  cbn [snd] in Hj.
  match goal with |- context [handle_finish cfg ?P ?R ?W] =>
    pose proof (handle_finish_fetched cfg P R W) as Hf;
    destruct (handle_finish cfg P R W) as [resp w2] end.
  cbn [snd] in Hf. exists w1, w2, resp. cbn zeta. auto.
Qed.

Lemma step_settle_idle id b s :
  take_job id (in_flight s) = None -> step1 s (Settle id b) = s.
Proof. intros Ht. unfold step. now rewrite Ht. Qed.

Lemma limiter_inv_step s e : inv s -> inv (step1 s e).
Proof.
  intros Hinv. destruct e as [req|id b|dt].
  - destruct (step_arrive req s) as [[r ->]|(p & w1 & _ & ->)].
    + exact Hinv.
    + apply limiter_inv_limit. exact Hinv.
  - destruct (take_job id (in_flight s)) as [[j rest]|] eqn:Ht.
    + destruct (step_settle id b s j rest Ht) as (w1 & w2 & resp & _ & _ & ->).
      apply (limiter_inv_next w1 s id j rest Hinv Ht).
    + now rewrite step_settle_idle.
  - exact Hinv.
Qed.

Lemma limiter_inv_run evs : forall s, inv s -> inv (runs evs s).
Proof.
  induction evs as [|e evs IH]; intros s Hinv; [exact Hinv|].
  apply IH, limiter_inv_step, Hinv.
Qed.

(** *** What a step does to the queue, the jobs in flight and the answers *)

Lemma dequeue_keeps s :
  answered (dequeue s) = answered s
  /\ (forall x, x ∈ in_flight s -> x ∈ in_flight (dequeue s)).
Proof.
  unfold dequeue. destruct (queue s) as [|j q]; [auto|].
  limiter_simpl. split; [reflexivity|].
  intros x Hx. apply elem_of_app. now left.
Qed.

Lemma limit_keeps j s :
  answered (limit cfg j s) = answered s
  /\ (forall x, x ∈ in_flight s -> x ∈ in_flight (limit cfg j s)).
Proof.
  unfold limit. destruct (Nat.ltb _ _); [|auto].
  match goal with |- context [dequeue ?S] => destruct (dequeue_keeps S) as [Ha Hi] end.
  rewrite Ha. split; [reflexivity | exact Hi].
Qed.

Lemma effective_settle id b s :
  effective s (Settle id b) = true <-> is_Some (take_job id (in_flight s)).
Proof. unfold effective. apply bool_decide_eq_true. Qed.

(** A queued job moves one place towards the head each time a job
    settles, is admitted from the head, and is never overtaken. *)
Lemma queue_after_step s e k j :
  inv s ->
  queue s !! k = Some j ->
  if effective s e then
    match k with
    | O => j ∈ in_flight (step1 s e)
    | S k' => queue (step1 s e) !! k' = Some j
    end
  else queue (step1 s e) !! k = Some j.
Proof.
  intros (Hc & Hle & Hq) Hk.
  assert (Hfull : activeCount s = CONCURRENCY cfg).
  { apply Hq. intros E. rewrite E in Hk. discriminate. }
  destruct e as [req|id b|dt].
  - cbn [effective].
    destruct (step_arrive req s) as [[r ->]|(p & w1 & _ & ->)]; [exact Hk|].
    unfold limit. cbn [activeCount].
    destruct (Nat.ltb_spec (activeCount s) (CONCURRENCY cfg)); [lia|].
    cbn [queue]. now apply lookup_app_l_Some.
  - destruct (take_job id (in_flight s)) as [[j0 rest]|] eqn:Ht.
    + assert (He : effective s (Settle id b) = true)
        by (apply effective_settle; rewrite Ht; eauto).
      rewrite He.
      destruct (step_settle id b s j0 rest Ht) as (w1 & w2 & resp & _ & _ & ->).
      unfold respond, next, dequeue.
      cbn [queue in_flight activeCount world answered next_id].
      destruct (queue s) as [|j1 q]; [discriminate|].
      limiter_simpl. destruct k as [|k'].
      * injection Hk as ->. apply elem_of_app. right. left.
      * exact Hk.
    + assert (He : effective s (Settle id b) = false).
      { destruct (effective s (Settle id b)) eqn:E; [|reflexivity].
        apply effective_settle in E. rewrite Ht in E. now destruct E. }
      rewrite He, step_settle_idle; [exact Hk | exact Ht].
  - exact Hk.
Qed.

Lemma answered_ids_step s e id :
  id ∈ answered_ids s -> id ∈ answered_ids (step1 s e).
Proof.
  unfold answered_ids. intros Hid. destruct e as [req|id' b|dt].
  - destruct (step_arrive req s) as [[r ->]|(p & w1 & _ & ->)].
    + unfold respond. cbn [answered]. rewrite map_app. apply elem_of_app. now left.
    + now rewrite (proj1 (limit_keeps _ _)).
  - destruct (take_job id' (in_flight s)) as [[j0 rest]|] eqn:Ht.
    + destruct (step_settle id' b s j0 rest Ht) as (w1 & w2 & resp & _ & _ & ->).
      unfold respond, next. cbn [answered].
      rewrite (proj1 (dequeue_keeps _)). cbn [answered].
      rewrite map_app. apply elem_of_app. now left.
    + now rewrite step_settle_idle.
  - exact Hid.
Qed.

(** Once admitted, always admitted. *)
Lemma admitted_step s e j : admitted j s -> admitted j (step1 s e).
Proof.
  intros [Hin|Hans]; [|right; now apply answered_ids_step].
  destruct e as [req|id b|dt].
  - destruct (step_arrive req s) as [[r ->]|(p & w1 & _ & ->)].
    + now left.
    + left. now apply (proj2 (limit_keeps _ _)).
  - destruct (take_job id (in_flight s)) as [[j0 rest]|] eqn:Ht.
    + destruct (step_settle id b s j0 rest Ht) as (w1 & w2 & resp & _ & _ & ->).
      destruct (take_job_spec _ _ _ _ Ht) as (Hid & _ & Hsplit).
      destruct (Hsplit j Hin) as [->|Hrest].
      * right. unfold answered_ids, respond. cbn [answered].
        rewrite map_app. apply elem_of_app. right. rewrite Hid. left.
      * left. unfold respond, next. cbn [in_flight].
        now apply (proj2 (dequeue_keeps _)).
    + rewrite step_settle_idle; [now left | exact Ht].
  - now left.
Qed.

Lemma admitted_run evs : forall s j, admitted j s -> admitted j (runs evs s).
Proof.
  induction evs as [|e evs IH]; intros s j H; [exact H|].
  apply IH, admitted_step, H.
Qed.

Lemma answered_ids_run evs : forall s id,
  id ∈ answered_ids s -> id ∈ answered_ids (runs evs s).
Proof.
  induction evs as [|e evs IH]; intros s id H; [exact H|].
  apply IH, answered_ids_step, H.
Qed.

(** First in, first admitted: the job at place [k] of the queue has been
    admitted as soon as more than [k] jobs have settled. *)
Lemma queued_job_admitted evs : forall s k j,
  inv s ->
  queue s !! k = Some j ->
  (k < count evs s)%nat ->
  admitted j (runs evs s).
Proof.
  induction evs as [|e evs IH]; intros s k j Hinv Hk Hlt; simpl in Hlt; [lia|].
  pose proof (queue_after_step s e k j Hinv Hk) as Hstep.
  pose proof (limiter_inv_step s e Hinv) as Hinv'.
  change (runs (e :: evs) s) with (runs evs (step1 s e)).
  destruct (effective s e).
  - destruct k as [|k'].
    + apply admitted_run. now left.
    + apply (IH _ k' j Hinv' Hstep). lia.
  - apply (IH _ k j Hinv' Hstep). lia.
Qed.

(** An admitted job is answered when its fetch settles, whichever way. *)
Lemma admitted_job_answered s j b :
  admitted j s -> j_id j ∈ answered_ids (step1 s (Settle (j_id j) b)).
Proof.
  intros [Hin|Hans]; [|now apply answered_ids_step].
  destruct (take_job_found _ _ Hin) as [[j0 rest] Ht].
  destruct (step_settle (j_id j) b s j0 rest Ht) as (w1 & w2 & resp & _ & _ & ->).
  unfold answered_ids, respond. cbn [answered].
  rewrite map_app. apply elem_of_app. right. left.
Qed.

(** While a job is queued some fetch is in flight, so a slot will be
    released. *)
Lemma queued_means_busy s k j :
  inv s -> (1 <= CONCURRENCY cfg)%nat ->
  queue s !! k = Some j -> exists j0, j0 ∈ in_flight s.
Proof.
  intros (Hc & Hle & Hq) HN Hk.
  assert (Hfull : activeCount s = CONCURRENCY cfg).
  { apply Hq. intros E. rewrite E in Hk. discriminate. }
  destruct (in_flight s) as [|j0 l]; [simpl in Hc; lia|].
  exists j0. left.
Qed.

(** *** Upstream calls are the jobs in flight *)

Lemma dequeue_count s :
  (length (fetched (world (dequeue s))) + length (in_flight s)
   = length (fetched (world s)) + length (in_flight (dequeue s)))%nat.
Proof.
  unfold dequeue. destruct (queue s) as [|j q]; [lia|].
  limiter_simpl. unfold fetch_call. cbn [fetched world].
  rewrite !length_app. simpl. lia.
Qed.

Lemma limit_count j s :
  (length (fetched (world (limit cfg j s))) + length (in_flight s)
   = length (fetched (world s)) + length (in_flight (limit cfg j s)))%nat.
Proof.
  unfold limit. destruct (Nat.ltb _ _); [|cbn; lia].
  match goal with |- context [dequeue ?S] => pose proof (dequeue_count S) as H end.
  cbn [world in_flight] in H. exact H.
Qed.

Lemma next_count s :
  (length (fetched (world (next s))) + length (in_flight s)
   = length (fetched (world s)) + length (in_flight (next s)))%nat.
Proof.
  unfold next.
  match goal with |- context [dequeue ?S] => pose proof (dequeue_count S) as H end.
  cbn [world in_flight] in H. exact H.
Qed.

(** Each step keeps the balance: URLs handed to [fetch] = jobs settled +
    jobs in flight. *)
Lemma calls_step s e :
  (length (fetched (world (step1 s e))) + length (in_flight s)
   = length (fetched (world s)) + (if effective s e then 1 else 0)
     + length (in_flight (step1 s e)))%nat.
Proof.
  destruct e as [req|id b|dt].
  - cbn [effective].
    destruct (step_arrive req s) as [[r ->]|(p & w1 & Hw & ->)].
    + unfold respond. cbn [world in_flight]. lia.
    + match goal with |- context [limit cfg ?J ?S] =>
        pose proof (limit_count J S) as H end.
      cbn [world in_flight] in H. rewrite Hw in H. lia.
  - destruct (take_job id (in_flight s)) as [[j0 rest]|] eqn:Ht.
    + assert (He : effective s (Settle id b) = true)
        by (apply effective_settle; rewrite Ht; eauto).
      rewrite He.
      destruct (step_settle id b s j0 rest Ht) as (w1 & w2 & resp & Hw1 & Hw2 & ->).
      destruct (take_job_spec _ _ _ _ Ht) as (_ & Hlen & _).
      unfold respond. cbn [world in_flight]. cbn zeta in Hw2. rewrite Hw2.
      match goal with |- context [next ?S] => pose proof (next_count S) as H end.
      cbn [world in_flight] in H. rewrite Hw1 in H. lia.
    + assert (He : effective s (Settle id b) = false).
      { destruct (effective s (Settle id b)) eqn:E; [|reflexivity].
        apply effective_settle in E. rewrite Ht in E. now destruct E. }
      rewrite He, step_settle_idle; [lia | exact Ht].
  - cbn. lia.
Qed.

Lemma calls_run evs : forall s,
  (length (fetched (world (runs evs s))) + length (in_flight s)
   = length (fetched (world s)) + count evs s + length (in_flight (runs evs s)))%nat.
Proof.
  induction evs as [|e evs IH]; intros s; [simpl; lia|].
  change (runs (e :: evs) s) with (runs evs (step1 s e)).
  pose proof (IH (step1 s e)) as H1. pose proof (calls_step s e) as H2.
  simpl. lia.
Qed.

(** *** The store keeps the standard TTL it was made with *)

Lemma handle_finish_stdTTL p r w :
  NodeCache.stdTTL (cache (snd (handle_finish cfg p r w)))
  = NodeCache.stdTTL (cache w).
Proof.
  unfold handle_finish. destruct r as [res|e]; [|reflexivity].
  destruct (error res); [|reflexivity].
  destruct (NodeCache.get _ _ _) as [v|]; [destruct (truthy v)|]; reflexivity.
Qed.

Lemma dequeue_cache s : cache (world (dequeue s)) = cache (world s).
Proof. unfold dequeue. destruct (queue s); reflexivity. Qed.

Lemma step_stdTTL s e :
  NodeCache.stdTTL (cache (world (step1 s e)))
  = NodeCache.stdTTL (cache (world s)).
Proof.
  destruct e as [req|id b|dt]; [| |reflexivity].
  - unfold step.
    destruct (handle_start_cases cfg req (world s)) as [[r Hr]|Hr]; rewrite Hr;
      [reflexivity|].
    unfold limit. destruct (Nat.ltb _ _); [|reflexivity].
    now rewrite dequeue_cache.
  - unfold step. destruct (take_job id (in_flight s)) as [[j rest]|]; [|reflexivity].
    pose proof (settle_world_frame JSON_parse (j_pending j) b (world s)) as [Hc _].
    destruct (job_settle JSON_parse (j_pending j) b (world s)) as [r w1].
    cbn [snd] in Hc.
    match goal with |- context [handle_finish cfg ?P ?R ?W] =>
      pose proof (handle_finish_stdTTL P R W) as Hf;
      destruct (handle_finish cfg P R W) as [resp w2] end.
    cbn [snd] in Hf. unfold respond. cbn [world]. rewrite Hf.
    unfold next. now rewrite dequeue_cache, <- Hc.
Qed.

Lemma run_stdTTL evs now :
  NodeCache.stdTTL (cache (world (runs evs (start cfg now)))) = CACHETTL cfg.
Proof.
  assert (H : forall s,
    NodeCache.stdTTL (cache (world (runs evs s)))
    = NodeCache.stdTTL (cache (world s))).
  { induction evs as [|e evs IH]; intros s; [reflexivity|].
    change (runs (e :: evs) s) with (runs evs (step1 s e)).
    now rewrite IH, step_stdTTL. }
  now rewrite H.
Qed.

(** *** One upstream call per request at most *)

Lemma dequeue_calls s :
  (length (fetched (world (dequeue s))) + length (queue (dequeue s))
   = length (fetched (world s)) + length (queue s))%nat.
Proof.
  unfold dequeue. destruct (queue s) as [|j q] eqn:E; [rewrite E; simpl; lia|].
  limiter_simpl. unfold fetch_call. cbn [fetched world].
  rewrite length_app. simpl. lia.
Qed.

Lemma limit_calls j s :
  (length (fetched (world (limit cfg j s))) + length (queue (limit cfg j s))
   = S (length (fetched (world s)) + length (queue s)))%nat.
Proof.
  unfold limit. destruct (Nat.ltb _ _).
  - rewrite dequeue_calls. cbn [world queue]. rewrite length_app. simpl. lia.
  - cbn [world queue]. rewrite length_app. simpl. lia.
Qed.

Lemma calls_per_step s e :
  (length (fetched (world (step1 s e))) + length (queue (step1 s e))
   <= length (fetched (world s)) + length (queue s) + arrivals [e])%nat.
Proof.
  destruct e as [req|id b|dt].
  - destruct (step_arrive req s) as [[r ->]|(p & w1 & Hw & ->)].
    + unfold respond. cbn. lia.
    + rewrite limit_calls. cbn [world queue arrivals]. rewrite Hw. lia.
  - destruct (take_job id (in_flight s)) as [[j0 rest]|] eqn:Ht.
    + destruct (step_settle id b s j0 rest Ht) as (w1 & w2 & resp & Hw1 & Hw2 & ->).
      unfold respond. cbn [world queue]. cbn zeta in Hw2. rewrite Hw2.
      unfold next. rewrite dequeue_calls. cbn [world queue arrivals].
      rewrite Hw1. lia.
    + rewrite step_settle_idle; [cbn; lia | exact Ht].
  - cbn. lia.
Qed.

Lemma calls_per_run evs : forall s,
  (length (fetched (world (runs evs s))) + length (queue (runs evs s))
   <= length (fetched (world s)) + length (queue s) + arrivals evs)%nat.
Proof.
  induction evs as [|e evs IH]; intros s; [simpl; lia|].
  change (runs (e :: evs) s) with (runs evs (step1 s e)).
  pose proof (IH (step1 s e)) as H1. pose proof (calls_per_step s e) as H2.
  assert (arrivals (e :: evs) = arrivals [e] + arrivals evs)%nat
    by (destruct e; reflexivity).
  lia.
Qed.

End Limiter.

(** C9.  In every state the event loop can reach, the jobs in flight (the
    URLs handed to [fetch] whose job has not settled) are at most the
    configured concurrency.  A queued job is never stuck: some fetch is in
    flight, the job is admitted as soon as more jobs have settled than
    stood before it in the queue, whatever else arrives meanwhile, and once
    its own fetch settles its request is answered. *)
Theorem limiter_bound_and_progress cfg JSON_parse now evs :
  (1 <= CONCURRENCY cfg)%nat ->
  let s := run cfg JSON_parse evs (start cfg now) in
  (length (in_flight s) <= CONCURRENCY cfg)%nat
  /\ (length (fetched (world s))
      = settles cfg JSON_parse evs (start cfg now) + length (in_flight s))%nat
  /\ forall k j,
       queue s !! k = Some j ->
       (exists j0, j0 ∈ in_flight s)
       /\ forall evs',
            (k < settles cfg JSON_parse evs' s)%nat ->
            admitted j (run cfg JSON_parse evs' s)
            /\ forall b evs'',
                 j_id j ∈ answered_ids
                   (run cfg JSON_parse (evs' ++ Settle (j_id j) b :: evs'') s).
Proof.
  intros HN s.
  assert (Hinv : limiter_inv cfg s)
    by (apply limiter_inv_run, limiter_inv_start).
  split; [|split].
  - destruct Hinv as (Hc & Hle & _). lia.
  - pose proof (calls_run cfg JSON_parse evs (start cfg now)) as H.
    fold s in H. simpl in H. lia.
  - intros k j Hk. split; [exact (queued_means_busy cfg s k j Hinv HN Hk)|].
    intros evs' Hlt.
    pose proof (queued_job_admitted cfg JSON_parse evs' s k j Hinv Hk Hlt) as Hadm.
    split; [exact Hadm|].
    intros b evs''. unfold run. rewrite fold_left_app. cbn [fold_left].
    apply answered_ids_run. apply admitted_job_answered. exact Hadm.
Qed.


Lemma limiter_bound_and_progress_witness :
  (1 <= CONCURRENCY single_slot_config)%nat
  /\ let s := run single_slot_config sample_parse
                  [Arrive regions_all; Arrive regions_all]
                  (start single_slot_config 0) in
     (length (in_flight s) <= 1)%nat
     /\ length (fetched (world s)) = 1%nat
     /\ map j_id (queue s) = [1%nat]
     /\ 1%nat ∈ answered_ids
          (run single_slot_config sample_parse
               ([Settle 0 TimesOut]
                ++ Settle 1 (Responds (json_reply 200 foo_doc)) :: []) s).
Proof.
  assert (HN : (1 <= CONCURRENCY single_slot_config)%nat) by (simpl; lia).
  split; [exact HN|].
  destruct (limiter_bound_and_progress single_slot_config sample_parse 0
              [Arrive regions_all; Arrive regions_all] HN)
    as (Hbound & Hcalls & Hqueue).
  split; [exact Hbound|]. split; [exact Hcalls|]. split; [reflexivity|].
  destruct (Hqueue O
              {| j_id := 1;
                 j_pending :=
                   {| p_key := "traffic:findRegionsAll:";
                      p_target :=
                        "https://trafficnz.info/service/traffic/rest/4/findRegionsAll";
                      p_timer := 1 |} |} eq_refl) as [_ Hlive].
  destruct (Hlive [Settle 0 TimesOut]) as [_ Hdone]; [vm_compute; lia|].
  exact (Hdone (Responds (json_reply 200 foo_doc)) []).
Defined.

(** Three cache-missing requests and one slot: one fetch at a time, the
    others queue in order of arrival and all three are answered once the
    fetches have settled, also when a fetch throws. *)
Example three_requests_one_slot :
  let s0 := run single_slot_config sample_parse
                [Arrive regions_all; Arrive regions_all; Arrive regions_all]
                (start single_slot_config 0) in
  let s1 := run single_slot_config sample_parse
                [Settle 0 TimesOut; Settle 1 (Responds (json_reply 200 foo_doc));
                 Settle 2 (Fails {| name := "TypeError" |})] s0 in
  map j_id (in_flight s0) = [0%nat] /\ map j_id (queue s0) = [1%nat; 2%nat]
  /\ in_flight s1 = [] /\ queue s1 = []
  /\ map (fun a => (fst a, status (snd a))) (answered s1)
     = [(0%nat, 504); (1%nat, 200); (2%nat, 504)]
  /\ length (fetched (world s1)) = 3%nat.
Proof. vm_compute. repeat split; reflexivity. Qed.

(** C8.  A response with a non-2xx status makes the job return
    [{error: true, status, data}] with the upstream status and the body
    read as text; and nothing is retried: no request, whatever the
    upstream does, hands more than one URL to [fetch], and along any run
    of the event loop the URLs handed to [fetch] are at most as many as
    the requests that came in. *)
Theorem upstream_error_outcome_no_retry cfg JSON_parse p resp text w :
  ok resp = false ->
  body_text resp = Return text ->
  job_settle JSON_parse p (Responds resp) w =
    (Return {| error := true; jr_status := resp_status resp; jr_data := JStr text |},
     cancel (p_timer p) w)
  /\ (forall req wait b w0,
        (length (fetched (snd (handler cfg JSON_parse req wait b w0)))
         <= S (length (fetched w0)))%nat)
  /\ (forall now evs,
        (length (fetched (world (run cfg JSON_parse evs (start cfg now))))
         <= arrivals evs)%nat).
Proof.
  intros Hok Hbody. split; [|split].
  - unfold job_settle, resp_text. now rewrite Hok, Hbody.
  - intros req wait b w0.
    destruct (handler_one_fetch cfg JSON_parse req wait b w0) as [H|H];
      rewrite H; [lia|]. rewrite length_app. simpl. lia.
  - intros now evs.
    pose proof (calls_per_run cfg JSON_parse evs (start cfg now)) as H.
    simpl in H. lia.
Qed.

Lemma upstream_error_outcome_no_retry_witness :
  ok (text_reply 500 "boom") = false /\
  job_settle sample_parse
             {| p_key := "traffic:findRegionsAll:"; p_target := "u"; p_timer := O |}
             (Responds (text_reply 500 "boom"))
             (snd (timeoutSignal (boot default_config 0))) =
    (Return {| error := true; jr_status := 500; jr_data := JStr "boom" |},
     cancel O (snd (timeoutSignal (boot default_config 0)))).
Proof.
  split; [reflexivity|].
  apply (upstream_error_outcome_no_retry default_config sample_parse
           {| p_key := "traffic:findRegionsAll:"; p_target := "u"; p_timer := O |}
           (text_reply 500 "boom") "boom"
           (snd (timeoutSignal (boot default_config 0))));
    reflexivity.
Defined.


(** ** Stale values that are not objects *)

(** An array comes back as an object keyed by index, a number or [true]
    as an object with [meta] alone. *)
Example stale_array_and_number :
  set_prop "meta" stale_warning (spread (JArr [JNum 7; JStr "x"]))
  = [("0", JNum 7); ("1", JStr "x"); ("meta", stale_warning)]
  /\ set_prop "meta" stale_warning (spread (JNum 5)) = [("meta", stale_warning)]
  /\ set_prop "meta" stale_warning (spread (JBool true)) = [("meta", stale_warning)]
  /\ set_prop "meta" stale_warning
       (spread (JObj [("meta", JNum 1); ("foo", JNum 2)]))
     = [("meta", stale_warning); ("foo", JNum 2)].
Proof. vm_compute. repeat split; reflexivity. Qed.

(** A stale [null], [false] or [0] is not served at all: the error
    document goes out. *)
Example falsy_stale_is_not_served :
  let w := with_cache
             (NodeCache.set 0 "k:stale" JNull (Some 300) (NodeCache.create 30))
             (boot default_config 0) in
  fst (handle_finish default_config
         {| p_key := "k"; p_target := "u"; p_timer := O |}
         (Return {| error := true; jr_status := 503; jr_data := JStr "busy" |}) w)
  = send 503 None (JObj [("error", JStr "Upstream error"); ("detail", JStr "busy")]).
Proof. vm_compute. reflexivity. Qed.

(** * Further properties of the handler *)

Section HandlerShapes.

Variable cfg : config.
Variable JSON_parse : string -> option json.

(** What [handle_start] tells when it hands a job to the limiter. *)
Lemma handle_start_submitted req w p w1 :
  handle_start cfg req w = (Submitted p, w1) ->
  isSafeResource (resource req) = true
  /\ truthy_opt (NodeCache.get (clock w) (cacheKey (resource req) (query req))
                               (cache w)) = false
  /\ p = {| p_key := cacheKey (resource req) (query req);
            p_target := targetUrl (NZTABASE cfg) (resource req) (query req);
            p_timer := next_timer w |}
  /\ w1 = snd (timeoutSignal w).
Proof.
  unfold handle_start.
  destruct (isSafeResource (resource req)); simpl; [|discriminate].
  destruct (NodeCache.get _ _ _) as [v|]; simpl.
  - destruct (truthy v); [discriminate|].
    intros H. injection H as <- <-. auto.
  - intros H. injection H as <- <-. auto.
Qed.

(** What [handle_start] tells when it answers on the spot. *)
Lemma handle_start_responded req w r w1 :
  handle_start cfg req w = (Responded r, w1) ->
  w1 = w
  /\ (r = send 400 None (JObj [("error", JStr "Unsupported resource")])
      \/ exists v, r = send 200 (Some "HIT") v).
Proof.
  unfold handle_start.
  destruct (isSafeResource (resource req)); simpl.
  - destruct (NodeCache.get _ _ _) as [v|]; simpl; [|discriminate].
    destruct (truthy v); [|discriminate].
    intros H. injection H as <- <-. eauto.
  - intros H. injection H as <- <-. auto.
Qed.

(** Everything a returned job result says about the upstream response. *)
Lemma job_settle_returns p b w jr w' :
  job_settle JSON_parse p b w = (Return jr, w') ->
  exists resp,
    b = Responds resp
    /\ w' = cancel (p_timer p) w
    /\ jr_status jr = resp_status resp
    /\ error jr = negb (ok resp)
    /\ (if error jr
        then exists text, body_text resp = Return text /\ jr_data jr = JStr text
        else is_string (jr_data jr) = false).
Proof.
  unfold job_settle. destruct b as [resp|e|]; [|discriminate|discriminate].
  destruct (ok resp) eqn:Hok; cbn [negb].
  - destruct (if includes _ _ then _ else _) as [d|e]; [|discriminate].
    intros H. injection H as <- <-. exists resp. rewrite Hok. cbn.
    repeat split. destruct d; reflexivity.
  - unfold resp_text. destruct (body_text resp) as [t|e] eqn:Hb; [|discriminate].
    intros H. injection H as <- <-. exists resp. rewrite Hok. cbn.
    repeat split. eauto.
Qed.

(** The process state a request leaves, but for the cache entries of its
    key: the cache is the one it found unless it answers MISS. *)
Lemma handle_finish_cache p r w :
  (x_cache (fst (handle_finish cfg p r w)) = Some "MISS"
   /\ cache (snd (handle_finish cfg p r w)) =
      NodeCache.set (clock w) (p_key p ++ ":stale")
        (body (fst (handle_finish cfg p r w))) (Some (CACHETTL cfg * 10))
        (NodeCache.set (clock w) (p_key p)
           (body (fst (handle_finish cfg p r w))) None (cache w)))
  \/ (x_cache (fst (handle_finish cfg p r w)) <> Some "MISS"
      /\ cache (snd (handle_finish cfg p r w)) = cache w).
Proof.
  unfold handle_finish. destruct r as [res|e]; [|right; split; [discriminate|reflexivity]].
  destruct (error res).
  - right.
    destruct (NodeCache.get _ _ _) as [s|]; [destruct (truthy s)|];
      (split; [discriminate|reflexivity]).
  - left. split; reflexivity.
Qed.

End HandlerShapes.

(** X1.  Every answer of the handler is of one of two kinds: status 200
    with the marker HIT, MISS or STALE, or no marker, a status other than
    200 and a body whose first field is [error], a string. *)
Theorem responses_classified cfg JSON_parse req wait b w :
  let r := fst (handler cfg JSON_parse req wait b w) in
  (status r = 200
   /\ (x_cache r = Some "HIT" \/ x_cache r = Some "MISS" \/ x_cache r = Some "STALE"))
  \/ (x_cache r = None /\ status r <> 200
      /\ exists msg more, body r = JObj (("error", JStr msg) :: more)).
Proof.
  cbn zeta. unfold handler.
  destruct (handle_start cfg req w) as [[r|p] w1] eqn:Hs.
  - destruct (handle_start_responded cfg req w r w1 Hs) as (_ & [->|[v ->]]).
    + right. cbn. split; [reflexivity|]. split; [discriminate|eauto].
    + left. cbn. auto.
  - destruct (job_settle JSON_parse p b (tick wait (fetch_call p w1)))
      as [[jr|e] w2] eqn:Hj.
    + destruct (job_settle_returns JSON_parse p b _ jr w2 Hj)
        as (resp & _ & _ & Hst & Herr & _).
      unfold handle_finish. destruct (error jr) eqn:He.
      * assert (Hne : (if Z.eqb (jr_status jr) 0 then 502 else jr_status jr) <> 200).
        { destruct (Z.eqb_spec (jr_status jr) 0); [discriminate|].
          rewrite Hst. unfold ok in Herr. symmetry in Herr.
          apply negb_true_iff, andb_false_iff in Herr. lia. }
        destruct (NodeCache.get _ _ _) as [s|]; [destruct (truthy s)|];
          cbn [fst status x_cache body send].
        -- left. split; [reflexivity | auto].
        -- right. split; [reflexivity|]. split; [exact Hne | eauto].
        -- right. split; [reflexivity|]. split; [exact Hne | eauto].
      * left. cbn. auto.
    + right. cbn. split; [reflexivity|]. split; [discriminate|eauto].
Qed.

Section HandlerEffects.

Variable cfg : config.
Variable JSON_parse : string -> option json.

(** The cache a request leaves: untouched unless the answer is a MISS,
    and then changed at the request's two keys only. *)
Lemma handler_cache_effect req wait b w :
  let out := handler cfg JSON_parse req wait b w in
  let key := cacheKey (resource req) (query req) in
  (x_cache (fst out) <> Some "MISS" -> cache (snd out) = cache w)
  /\ (forall k, k <> key -> k <> key ++ ":stale" ->
        NodeCache.data (cache (snd out)) !! k = NodeCache.data (cache w) !! k)
  /\ NodeCache.stdTTL (cache (snd out)) = NodeCache.stdTTL (cache w).
Proof.
  cbn zeta. unfold handler.
  destruct (handle_start cfg req w) as [[r|p] w1] eqn:Hs.
  - destruct (handle_start_responded cfg req w r w1 Hs) as (-> & _). cbn. auto.
  - destruct (handle_start_submitted cfg req w p w1 Hs) as (_ & _ & Hp & ->).
    pose proof (settle_world_frame JSON_parse p b
                  (tick wait (fetch_call p (snd (timeoutSignal w))))) as [Hc _].
    destruct (job_settle JSON_parse p b _) as [r w2]. cbn [snd] in Hc.
    cbn [tick fetch_call timeoutSignal snd cache] in Hc.
    destruct (handle_finish_cache cfg p r w2) as [[Hm Hw]|[Hm Hw]];
      rewrite Hw, Hc.
    + split; [intros Hne; now destruct Hne|]. split; [|reflexivity].
      intros k Hk1 Hk2. rewrite Hp. cbn [p_key NodeCache.set NodeCache.data].
      rewrite !lookup_insert_ne by congruence. reflexivity.
    + auto.
Qed.

(** A non-2xx response whose body is read leaves the decision to the
    stale lookup of [handle_finish]. *)
Lemma handler_upstream_error req wait resp text w :
  isSafeResource (resource req) = true ->
  truthy_opt (NodeCache.get (clock w) (cacheKey (resource req) (query req)) (cache w))
    = false ->
  ok resp = false ->
  body_text resp = Return text ->
  let p := {| p_key := cacheKey (resource req) (query req);
              p_target := targetUrl (NZTABASE cfg) (resource req) (query req);
              p_timer := next_timer w |} in
  handler cfg JSON_parse req wait (Responds resp) w =
  handle_finish cfg p
    (Return {| error := true; jr_status := resp_status resp; jr_data := JStr text |})
    (cancel (next_timer w) (tick wait (fetch_call p (snd (timeoutSignal w))))).
Proof.
  intros Hs Hm Hok Hb p.
  rewrite (handler_miss cfg JSON_parse req wait (Responds resp) w Hs Hm).
  fold p. unfold job_settle, resp_text. rewrite Hok, Hb. reflexivity.
Qed.

End HandlerEffects.

(** X2.  Only an answer marked MISS writes the cache: after any other
    answer (HIT, STALE, 400, 504, an upstream error) the cache is the one
    the request found.  A MISS changes the fresh and the stale entry of the
    request's own key and no other key, and no request changes the store's
    standard TTL. *)
Theorem only_a_miss_writes_the_cache cfg JSON_parse req wait b w :
  let out := handler cfg JSON_parse req wait b w in
  let key := cacheKey (resource req) (query req) in
  (x_cache (fst out) <> Some "MISS" -> cache (snd out) = cache w)
  /\ (forall k, k <> key -> k <> key ++ ":stale" ->
        NodeCache.data (cache (snd out)) !! k = NodeCache.data (cache w) !! k)
  /\ NodeCache.stdTTL (cache (snd out)) = NodeCache.stdTTL (cache w).
Proof. exact (handler_cache_effect cfg JSON_parse req wait b w). Qed.

Lemma only_a_miss_writes_the_cache_witness :
  let w := tick 31000
             (snd (handler default_config sample_parse regions_all 100
                           (Responds (json_reply 200 foo_doc))
                           (boot default_config 0))) in
  let out := handler default_config sample_parse regions_all 100
                     (Responds (text_reply 503 "busy")) w in
  x_cache (fst out) = Some "STALE" /\ cache (snd out) = cache w.
Proof.
  intros w out. split; [vm_compute; reflexivity|].
  destruct (only_a_miss_writes_the_cache default_config sample_parse regions_all
              100 (Responds (text_reply 503 "busy")) w) as [H _].
  apply H. vm_compute. discriminate.
Defined.

(** X3.  A 2xx response that declares JSON and whose body does not parse
    is answered 504 "Proxy error"; nothing is cached and the timer of the
    request has been cleared. *)
Theorem unparsable_json_is_proxy_error cfg JSON_parse req wait resp text w :
  isSafeResource (resource req) = true ->
  truthy_opt (NodeCache.get (clock w) (cacheKey (resource req) (query req)) (cache w))
    = false ->
  ok resp = true ->
  includes "application/json" (default "" (content_type resp)) = true ->
  body_text resp = Return text ->
  JSON_parse text = None ->
  let out := handler cfg JSON_parse req wait (Responds resp) w in
  fst out = send 504 None (JObj [("error", JStr "Proxy error")])
  /\ cache (snd out) = cache w
  /\ timers (snd out) !! next_timer w = Some Cleared.
Proof.
  intros Hs Hm Hok Hj Hb Hp out. unfold out.
  assert (Hout : handler cfg JSON_parse req wait (Responds resp) w =
                 (send 504 None (JObj [("error", JStr "Proxy error")]),
                  cancel (next_timer w)
                    (tick wait
                       (fetch_call
                          {| p_key := cacheKey (resource req) (query req);
                             p_target :=
                               targetUrl (NZTABASE cfg) (resource req) (query req);
                             p_timer := next_timer w |}
                          (snd (timeoutSignal w)))))).
  { apply (handler_throw cfg JSON_parse req wait (Responds resp) w
             {| name := "SyntaxError" |} _ Hs Hm).
    rewrite (job_settle_ok JSON_parse _ resp _ Hok), Hj.
    unfold resp_json. rewrite Hb, Hp. reflexivity. }
  split; [|split].
  - now rewrite Hout.
  - apply (proj1 (handler_cache_effect cfg JSON_parse req wait (Responds resp) w)).
    rewrite Hout. discriminate.
  - exact (timer_after_request cfg JSON_parse req wait (Responds resp) w Hs Hm).
Qed.

Lemma unparsable_json_is_proxy_error_witness :
  let out := handler default_config sample_parse regions_all 100
                     (Responds (json_reply 200 "<html>"))
                     (boot default_config 0) in
  fst out = send 504 None (JObj [("error", JStr "Proxy error")])
  /\ cache (snd out) = cache (boot default_config 0)
  /\ timers (snd out) !! O = Some Cleared.
Proof.
  apply (unparsable_json_is_proxy_error default_config sample_parse regions_all
           100 (json_reply 200 "<html>") "<html>" (boot default_config 0));
    vm_compute; reflexivity.
Defined.

(** X4.  Whenever the job returns a result, the upstream responded and the
    result carries its status; [error] is set exactly when the status is
    outside 200..299; the data of an error result is the body text as a
    string, and the data of a success is never a string. *)
Theorem job_result_shapes JSON_parse p b w jr w' :
  job_settle JSON_parse p b w = (Return jr, w') ->
  exists resp,
    b = Responds resp
    /\ w' = cancel (p_timer p) w
    /\ jr_status jr = resp_status resp
    /\ error jr = negb (ok resp)
    /\ (if error jr
        then exists text, body_text resp = Return text /\ jr_data jr = JStr text
        else is_string (jr_data jr) = false).
Proof. exact (job_settle_returns JSON_parse p b w jr w'). Qed.

Lemma job_result_shapes_witness :
  exists resp,
    Responds (json_reply 200 "true") = Responds resp
    /\ cancel O (boot default_config 0) = cancel O (boot default_config 0)
    /\ 200 = resp_status resp
    /\ false = negb (ok resp)
    /\ is_string (JBool true) = false.
Proof.
  exact (job_result_shapes sample_parse
           {| p_key := "k"; p_target := "u"; p_timer := O |}
           (Responds (json_reply 200 "true")) (boot default_config 0)
           {| error := false; jr_status := 200; jr_data := JBool true |}
           (cancel O (boot default_config 0)) eq_refl).
Defined.

(** X5.  The life of a stored value.  A request stores a truthy value;
    the same request comes back [dt] ms later, after the fresh TTL has run
    out, and this time the upstream answers with a non-2xx status.  While
    the stale TTL (ten times [CACHETTL]) has not run out when the fetch
    settles, the stored value is served as STALE with the warning; once it
    has, the upstream's status and body go out as an error. *)
Theorem stale_window_after_success
    cfg JSON_parse req wait resp d w dt wait' resp' text' :
  isSafeResource (resource req) = true ->
  truthy_opt (NodeCache.get (clock w) (cacheKey (resource req) (query req)) (cache w))
    = false ->
  ok resp = true ->
  (if includes "application/json" (default "" (content_type resp))
   then resp_json JSON_parse resp else resp_text resp) = Return d ->
  let normalized := if is_string d then JObj [("raw", d)] else d in
  truthy normalized = true ->
  1000 * NodeCache.stdTTL (cache w) <= dt ->
  ok resp' = false ->
  body_text resp' = Return text' ->
  let w' := tick dt (snd (handler cfg JSON_parse req wait (Responds resp) w)) in
  fst (handler cfg JSON_parse req wait' (Responds resp') w') =
  if Z.ltb (dt + wait') (1000 * (CACHETTL cfg * 10))
  then send 200 (Some "STALE")
            (JObj (set_prop "meta" stale_warning (spread normalized)))
  else send (if Z.eqb (resp_status resp') 0 then 502 else resp_status resp') None
            (JObj [("error", JStr "Upstream error"); ("detail", JStr text')]).
Proof.
  intros Hs Hm Hok Hd normalized Ht Hdt Hok' Hb' w'.
  unfold w'. rewrite (handler_miss_success cfg JSON_parse req wait resp d w Hs Hm Hok Hd).
  cbn [snd]. fold normalized.
  match goal with |- context [handler _ _ _ _ _ ?W] => set (w1 := W) end.
  assert (Hclock : clock w1 = clock w + wait + dt).
  { unfold w1. simpl. now rewrite (proj2 (cancel_frame _ _)). }
  assert (Hcache : cache w1 =
            NodeCache.set (clock w + wait)
              (cacheKey (resource req) (query req) ++ ":stale") normalized
              (Some (CACHETTL cfg * 10))
              (NodeCache.set (clock w + wait) (cacheKey (resource req) (query req))
                 normalized None (cache w))) by reflexivity.
  assert (Hm1 : truthy_opt (NodeCache.get (clock w1)
                  (cacheKey (resource req) (query req)) (cache w1)) = false).
  { rewrite Hclock, Hcache.
    rewrite get_set_other by (symmetry; apply stale_key_ne).
    rewrite get_set_same. cbn [default].
    destruct (Z.ltb_spec (clock w + wait + dt)
                (clock w + wait + 1000 * NodeCache.stdTTL (cache w)));
      [lia | reflexivity]. }
  rewrite (handler_upstream_error cfg JSON_parse req wait' resp' text' w1
             Hs Hm1 Hok' Hb').
  set (p := {| p_key := _; p_target := _; p_timer := _ |}).
  set (jr := {| error := true; jr_status := _; jr_data := _ |}).
  set (w2 := cancel _ _).
  assert (Hst : NodeCache.get (clock w2) (p_key p ++ ":stale") (cache w2) =
                if Z.ltb (dt + wait') (1000 * (CACHETTL cfg * 10))
                then Some normalized else None).
  { unfold w2. rewrite (proj1 (cancel_frame _ _)), (proj2 (cancel_frame _ _)).
    cbn [tick fetch_call timeoutSignal snd clock cache p_key p].
    rewrite Hclock, Hcache, get_set_same. cbn [default]. unfold id.
    destruct (Z.ltb_spec (clock w + wait + dt + wait')
                (clock w + wait + 1000 * (CACHETTL cfg * 10)));
      destruct (Z.ltb_spec (dt + wait') (1000 * (CACHETTL cfg * 10)));
      (reflexivity || lia). }
  destruct (Z.ltb (dt + wait') (1000 * (CACHETTL cfg * 10))).
  - now rewrite (handle_finish_stale cfg p jr w2 normalized eq_refl Hst Ht).
  - rewrite (handle_finish_no_stale cfg p jr w2 eq_refl); [reflexivity|].
    now rewrite Hst.
Qed.

Lemma stale_window_after_success_witness :
  let w1 := snd (handler default_config sample_parse regions_all 100
                         (Responds (json_reply 200 foo_doc))
                         (boot default_config 0)) in
  fst (handler default_config sample_parse regions_all 100
               (Responds (text_reply 500 "boom")) (tick 299000 w1))
  = send 200 (Some "STALE")
         (JObj [("foo", JNum 1);
                ("meta", JObj [("warning", JStr "Upstream error, served stale cache")])])
  /\ fst (handler default_config sample_parse regions_all 100
                  (Responds (text_reply 500 "boom")) (tick 300000 w1))
     = send 500 None (JObj [("error", JStr "Upstream error"); ("detail", JStr "boom")]).
Proof.
  split.
  - apply (stale_window_after_success default_config sample_parse regions_all
             100 (json_reply 200 foo_doc) (JObj [("foo", JNum 1)])
             (boot default_config 0) 299000 100 (text_reply 500 "boom") "boom");
      vm_compute; try reflexivity; discriminate.
  - apply (stale_window_after_success default_config sample_parse regions_all
             100 (json_reply 200 foo_doc) (JObj [("foo", JNum 1)])
             (boot default_config 0) 300000 100 (text_reply 500 "boom") "boom");
      vm_compute; try reflexivity; discriminate.
Defined.

(** * Further properties of keys and target URLs *)

Lemma all_chars_impl (P Q : ascii -> bool) s :
  (forall c, P c = true -> Q c = true) ->
  all_chars P s = true -> all_chars Q s = true.
Proof.
  intros HPQ. induction s as [|c s IH]; simpl; [reflexivity|].
  intros H. apply andb_true_iff in H as [Hc Hs].
  now rewrite (HPQ c Hc), IH.
Qed.

(** The names of the whitelist are made of letters and digits. *)
Lemma allowed_names_alnum r :
  isSafeResource r = true -> all_chars is_alnum r = true.
Proof.
  unfold isSafeResource, allowed. intros H. apply bool_decide_eq_true in H.
  apply elem_of_list_to_set in H.
  repeat (apply elem_of_cons in H as [->|H]; [reflexivity|]).
  now apply elem_of_nil in H.
Qed.

(** A text whose head part is free of [c] is cut in one way only at its
    first [c]. *)
Lemma split_first_char (c : ascii) r1 : forall r2 t1 t2,
  all_chars (fun x => negb (Ascii.eqb x c)) r1 = true ->
  all_chars (fun x => negb (Ascii.eqb x c)) r2 = true ->
  (t1 = "" \/ exists t, t1 = String c t) ->
  (t2 = "" \/ exists t, t2 = String c t) ->
  r1 ++ t1 = r2 ++ t2 -> r1 = r2 /\ t1 = t2.
Proof.
  induction r1 as [|a1 r1 IH]; intros [|a2 r2] t1 t2 H1 H2 T1 T2 E; simpl in E.
  - now split.
  - simpl in H2. apply andb_true_iff in H2 as [Ha _].
    destruct T1 as [->|[t ->]]; [discriminate|]. injection E as -> _.
    now rewrite Ascii.eqb_refl in Ha.
  - simpl in H1. apply andb_true_iff in H1 as [Ha _].
    destruct T2 as [->|[t ->]]; [discriminate|]. injection E as -> _.
    now rewrite Ascii.eqb_refl in Ha.
  - simpl in H1, H2. apply andb_true_iff in H1 as [_ H1].
    apply andb_true_iff in H2 as [_ H2]. injection E as -> E.
    destruct (IH _ _ _ H1 H2 T1 T2 E) as [-> ->]. now split.
Qed.

(** A serialized query is empty exactly for no parameters, and otherwise
    holds an [=]. *)
Lemma toString_has_eq q :
  q <> [] ->
  all_chars (fun x => negb (Ascii.eqb x "=")) (URLSearchParams_toString q) = false.
Proof.
  destruct q as [|p q]; [congruence|]. intros _.
  rewrite toString_cons, all_chars_app. simpl. apply andb_false_r.
Qed.

Lemma toString_empty q : URLSearchParams_toString q = "" -> q = [].
Proof.
  intros E. destruct q as [|p q]; [reflexivity|].
  pose proof (toString_has_eq (p :: q)) as H. rewrite E in H.
  simpl in H. discriminate H. congruence.
Qed.

Lemma targetUrl_inj base r1 q1 r2 q2 :
  isSafeResource r1 = true -> isSafeResource r2 = true ->
  targetUrl base r1 q1 = targetUrl base r2 q2 -> r1 = r2 /\ q1 = q2.
Proof.
  intros H1 H2 E. unfold targetUrl in E. cbn zeta in E.
  apply append_inv_head in E. injection E as E.
  assert (Hq : forall c, is_alnum c = true -> negb (Ascii.eqb c "?") = true).
  { intros c Hc. destruct (Ascii.eqb_spec c "?") as [->|]; [discriminate|reflexivity]. }
  apply split_first_char with (c := "?"%char) in E.
  - destruct E as [-> E]. split; [reflexivity|]. apply toString_inj.
    destruct (String.eqb_spec (URLSearchParams_toString q1) "") as [E1|_],
             (String.eqb_spec (URLSearchParams_toString q2) "") as [E2|_].
    + congruence.
    + discriminate.
    + discriminate.
    + now injection E.
  - apply (all_chars_impl is_alnum _ _ Hq), allowed_names_alnum, H1.
  - apply (all_chars_impl is_alnum _ _ Hq), allowed_names_alnum, H2.
  - destruct (String.eqb (URLSearchParams_toString q1) "");
      [now left | right; eexists; reflexivity].
  - destruct (String.eqb (URLSearchParams_toString q2) "");
      [now left | right; eexists; reflexivity].
Qed.

(** X6.  For whitelisted resources the cache key and the upstream URL go
    together: two requests share a cache key exactly when they are sent to
    the same upstream URL, so a cached value is only ever served for the
    URL it was fetched from, and one URL is never cached under two keys. *)
Theorem key_and_target_agree base r1 q1 r2 q2 :
  isSafeResource r1 = true -> isSafeResource r2 = true ->
  (cacheKey r1 q1 = cacheKey r2 q2 <-> targetUrl base r1 q1 = targetUrl base r2 q2).
Proof.
  intros H1 H2. split; intros E.
  - destruct (cacheKey_inj _ _ _ _ E) as [-> ->]. reflexivity.
  - destruct (targetUrl_inj base _ _ _ _ H1 H2 E) as [-> ->]. reflexivity.
Qed.

Lemma key_and_target_agree_witness :
  targetUrl "https://up" "findCamerasByRegion" [("regionId", "7")]
  <> targetUrl "https://up" "findCamerasAll" [("regionId", "7")].
Proof.
  intros E.
  apply (key_and_target_agree "https://up" "findCamerasByRegion" [("regionId", "7")]
           "findCamerasAll" [("regionId", "7")]) in E;
    [discriminate E | vm_compute; reflexivity | vm_compute; reflexivity].
Defined.

(** X7.  The stale tier and the fresh tier share one store without ever
    meeting: no stale key [key + ':stale'] is the fresh key of any
    request, whatever the resources and the query entries. *)
Theorem stale_keys_apart r q r' q' :
  cacheKey r q ++ ":stale" <> cacheKey r' q'.
Proof.
  unfold cacheKey. intros E.
  rewrite (append_assoc "traffic:" (r ++ ":" ++ URLSearchParams_toString q) ":stale")
    in E.
  apply append_inv_head in E.
  destruct (split_last_colon (r ++ ":" ++ URLSearchParams_toString q) r' "stale"
              (URLSearchParams_toString q') eq_refl (toString_no_colon q') E)
    as [_ Hq].
  destruct q' as [|p' q']; [discriminate Hq|].
  pose proof (toString_has_eq (p' :: q')) as H. rewrite <- Hq in H.
  simpl in H. discriminate H. congruence.
Qed.

Lemma stale_keys_apart_witness :
  cacheKey "findWaysAll" [] ++ ":stale" <> cacheKey "findWaysAll" [("stale", "")].
Proof.
  exact (stale_keys_apart "findWaysAll" [] "findWaysAll" [("stale", "")]).
Defined.

(** * Further properties of the event loop *)

Section EventLoopFacts.

Variable cfg : config.
Variable JSON_parse : string -> option json.

Local Abbreviation step1 := (step cfg JSON_parse).
Local Abbreviation runs := (run cfg JSON_parse).

(** Admission moves the head of the queue behind the jobs in flight: the
    list of jobs owed an answer stays as it is. *)
Lemma dequeue_jobs s : jobs (dequeue s) = jobs s.
Proof.
  unfold jobs, dequeue. destruct (queue s) as [|j q] eqn:E; [now rewrite E|].
  cbn. now rewrite <- app_assoc.
Qed.

Lemma limit_jobs j s : jobs (limit cfg j s) = (jobs s ++ [j])%list.
Proof.
  unfold limit. destruct (Nat.ltb _ _); [rewrite dequeue_jobs|];
    unfold jobs; cbn; now rewrite app_assoc.
Qed.

Lemma dequeue_frame s :
  answered (dequeue s) = answered s
  /\ next_id (dequeue s) = next_id s
  /\ timers (world (dequeue s)) = timers (world s)
  /\ next_timer (world (dequeue s)) = next_timer (world s).
Proof. unfold dequeue. destruct (queue s); auto. Qed.

Lemma limit_frame j s :
  answered (limit cfg j s) = answered s
  /\ next_id (limit cfg j s) = next_id s
  /\ timers (world (limit cfg j s)) = timers (world s)
  /\ next_timer (world (limit cfg j s)) = next_timer (world s).
Proof.
  unfold limit. destruct (Nat.ltb _ _); [|auto].
  match goal with |- context [dequeue ?S] => exact (dequeue_frame S) end.
Qed.

(** The job taken out of the jobs in flight, and what stays. *)
Lemma take_job_split id l j rest :
  take_job id l = Some (j, rest) ->
  exists l1 l2, l = (l1 ++ j :: l2)%list /\ rest = (l1 ++ l2)%list.
Proof.
  revert j rest. induction l as [|y l IH]; intros j rest H; simpl in H.
  - discriminate.
  - destruct (Nat.eqb (j_id y) id).
    + injection H as <- <-. now exists [], l.
    + destruct (take_job id l) as [[j' rest']|]; [|discriminate].
      injection H as <- <-.
      destruct (IH j' rest' eq_refl) as (l1 & l2 & -> & ->).
      now exists (y :: l1), l2.
Qed.

(** A step, spelled out: what it does to the answers, to the jobs owed an
    answer and to the request counter. *)
Lemma step_accounts s e :
  match e with
  | Arrive _ =>
      next_id (step1 s e) = S (next_id s)
      /\ ((exists r, answered (step1 s e) = (answered s ++ [(next_id s, r)])%list
                     /\ jobs (step1 s e) = jobs s)
          \/ (exists p, answered (step1 s e) = answered s
                        /\ jobs (step1 s e) =
                           (jobs s ++ [{| j_id := next_id s; j_pending := p |}])%list))
  | Settle id b =>
      next_id (step1 s e) = next_id s
      /\ ((take_job id (in_flight s) = None /\ step1 s e = s)
          \/ (exists j l1 l2 r,
                j_id j = id
                /\ in_flight s = (l1 ++ j :: l2)%list
                /\ jobs (step1 s e) = ((l1 ++ l2) ++ queue s)%list
                /\ answered (step1 s e) = (answered s ++ [(id, r)])%list))
  | Tick _ =>
      next_id (step1 s e) = next_id s /\ answered (step1 s e) = answered s
      /\ jobs (step1 s e) = jobs s
  end.
Proof.
  destruct e as [req|id b|dt].
  - unfold step. destruct (handle_start cfg req (world s)) as [[r|p] w1].
    + split; [reflexivity|]. left. exists r. split; reflexivity.
    + match goal with |- context [limit cfg ?J ?S] =>
        destruct (limit_frame J S) as (Ha & Hn & _); pose proof (limit_jobs J S) as Hj
      end.
      split; [exact Hn|]. right. exists p. split; [exact Ha | exact Hj].
  - unfold step. destruct (take_job id (in_flight s)) as [[j rest]|] eqn:Ht.
    + destruct (take_job_spec _ _ _ _ Ht) as (Hid & _ & _).
      destruct (take_job_split _ _ _ _ Ht) as (l1 & l2 & Hl & ->).
      destruct (job_settle JSON_parse (j_pending j) b (world s)) as [r w1].
      match goal with |- context [handle_finish cfg ?P ?R ?W] =>
        destruct (handle_finish cfg P R W) as [resp w2] end.
      unfold respond, next.
      match goal with |- context [dequeue ?S] =>
        destruct (dequeue_frame S) as (Ha & Hn & _); pose proof (dequeue_jobs S) as Hj
      end.
      split; [exact Hn|]. right. exists j, l1, l2, resp.
      split; [exact Hid|]. split; [exact Hl|].
      unfold jobs in *. cbn [in_flight queue answered] in *.
      split; [exact Hj | now rewrite Ha].
    + split; [reflexivity|]. left. split; reflexivity.
  - repeat split.
Qed.

(** *** Every request is accounted for *)

Lemma step_conserves s e :
  answered_ids s ++ map j_id (jobs s) ≡ₚ seq 0 (next_id s) ->
  answered_ids (step1 s e) ++ map j_id (jobs (step1 s e))
    ≡ₚ seq 0 (next_id (step1 s e)).
Proof.
  intros H. pose proof (step_accounts s e) as Hs. unfold answered_ids in *.
  destruct e as [req|id b|dt].
  - destruct Hs as (-> & [(r & -> & ->)|(p & -> & ->)]);
      rewrite seq_S, <- H, ?map_app; cbn [map fst j_id]; solve_Permutation.
  - destruct Hs as (-> & [(_ & ->)|(j & l1 & l2 & r & Hid & Hl & -> & ->)]);
      [exact H|].
    rewrite <- H. unfold jobs. rewrite Hl, !map_app. cbn [map fst].
    rewrite Hid. solve_Permutation.
  - destruct Hs as (-> & -> & ->). exact H.
Qed.

Lemma run_conserves evs : forall s,
  answered_ids s ++ map j_id (jobs s) ≡ₚ seq 0 (next_id s) ->
  answered_ids (runs evs s) ++ map j_id (jobs (runs evs s))
    ≡ₚ seq 0 (next_id (runs evs s)).
Proof.
  induction evs as [|e evs IH]; intros s H; [exact H|].
  apply IH, step_conserves, H.
Qed.

Lemma run_next_id evs : forall s,
  next_id (runs evs s) = (next_id s + arrivals evs)%nat.
Proof.
  induction evs as [|e evs IH]; intros s; [simpl; lia|].
  change (runs (e :: evs) s) with (runs evs (step1 s e)). rewrite IH.
  pose proof (step_accounts s e) as Hs.
  destruct e; [destruct Hs as [-> _] | destruct Hs as [-> _]
              | destruct Hs as [-> _]]; simpl; lia.
Qed.

End EventLoopFacts.

(** X8.  No request is lost and none is answered twice: in every state
    the event loop can reach, the requests that came in, numbered in order
    of arrival, are exactly those answered, those whose fetch is in flight
    and those queued, each of them once. *)
Theorem requests_accounted cfg JSON_parse now evs :
  let s := run cfg JSON_parse evs (start cfg now) in
  next_id s = arrivals evs
  /\ answered_ids s ++ map j_id (in_flight s) ++ map j_id (queue s)
       ≡ₚ seq 0 (arrivals evs)
  /\ NoDup (answered_ids s).
Proof.
  intros s.
  assert (Hn : next_id s = arrivals evs)
    by (unfold s; now rewrite run_next_id).
  assert (Hp : answered_ids s ++ map j_id (jobs s) ≡ₚ seq 0 (next_id s)).
  { apply run_conserves. reflexivity. }
  rewrite Hn in Hp. unfold jobs in Hp. rewrite map_app in Hp.
  split; [exact Hn|]. split; [exact Hp|].
  assert (Hnd : NoDup (answered_ids s ++ map j_id (in_flight s) ++ map j_id (queue s))).
  { rewrite Hp. apply NoDup_seq. }
  now apply NoDup_app in Hnd as (Hnd & _).
Qed.

Section EventLoopSafety.

Variable cfg : config.
Variable JSON_parse : string -> option json.

Local Abbreviation step1 := (step cfg JSON_parse).
Local Abbreviation runs := (run cfg JSON_parse).
Local Abbreviation good := (whitelisted_url cfg).
Local Abbreviation urls_ok := (urls_inv cfg).
Local Abbreviation armed_ok := (armed_inv).

(** *** Only whitelisted targets are fetched *)

Lemma dequeue_urls s : urls_ok s -> urls_ok (dequeue s).
Proof.
  unfold urls_inv, dequeue. intros [Hf Hq].
  destruct (queue s) as [|j q] eqn:E; [now rewrite E|].
  apply Forall_cons in Hq as [Hj Hq]. cbn. split; [|exact Hq].
  apply Forall_app. split; [exact Hf|]. now apply Forall_singleton.
Qed.

Lemma step_urls s e : urls_ok s -> urls_ok (step1 s e).
Proof.
  intros [Hf Hq]. destruct e as [req|id b|dt].
  - unfold step. destruct (handle_start cfg req (world s)) as [[r|p] w1] eqn:Hs.
    + destruct (handle_start_responded cfg req (world s) r w1 Hs) as [-> _].
      split; assumption.
    + destruct (handle_start_submitted cfg req (world s) p w1 Hs)
        as (Hsafe & _ & -> & ->).
      assert (Hinv : urls_ok
                {| world := snd (timeoutSignal (world s));
                   activeCount := activeCount s;
                   queue := queue s ++
                     [{| j_id := next_id s;
                         j_pending :=
                           {| p_key := cacheKey (resource req) (query req);
                              p_target := targetUrl (NZTABASE cfg) (resource req)
                                                    (query req);
                              p_timer := next_timer (world s) |} |}];
                   in_flight := in_flight s; answered := answered s;
                   next_id := S (next_id s) |}).
      { split; cbn; [exact Hf|]. apply Forall_app. split; [exact Hq|].
        apply Forall_singleton. cbn [j_pending p_target].
        exists (resource req), (query req). split; [exact Hsafe | reflexivity]. }
      unfold limit. cbn [activeCount].
      destruct (Nat.ltb _ _); [apply dequeue_urls|]; exact Hinv.
  - unfold step. destruct (take_job id (in_flight s)) as [[j rest]|]; [|now split].
    pose proof (job_settle_fetched JSON_parse (j_pending j) b (world s)) as Hj.
    destruct (job_settle JSON_parse (j_pending j) b (world s)) as [r w1].
    cbn [snd] in Hj.
    match goal with |- context [handle_finish cfg ?P ?R ?W] =>
      pose proof (handle_finish_fetched cfg P R W) as Hh;
      destruct (handle_finish cfg P R W) as [resp w2] end.
    cbn [snd] in Hh. unfold respond, next in *.
    match type of Hh with context [dequeue ?S] =>
      assert (Hd : urls_ok (dequeue S))
        by (apply dequeue_urls; split; cbn; [now rewrite Hj | exact Hq]) end.
    destruct Hd as [Hdf Hdq]. split; cbn; [now rewrite Hh | exact Hdq].
  - split; assumption.
Qed.

Lemma run_urls evs : forall s, urls_ok s -> urls_ok (runs evs s).
Proof.
  induction evs as [|e evs IH]; intros s H; [exact H|].
  apply IH, step_urls, H.
Qed.

(** *** Timers *)

Lemma cancel_armed i w t :
  timers (cancel i w) !! t = Some Armed ->
  t <> i /\ timers w !! t = Some Armed.
Proof.
  unfold cancel. destruct (timers w !! i) as [[]|] eqn:E; cbn;
    try (intros H; split; [intros ->; congruence | exact H]).
  rewrite lookup_insert. destruct (decide (i = t)) as [->|Hne]; [discriminate|].
  intros H. split; [congruence | exact H].
Qed.

Lemma fire_armed i w t :
  timers (fire i w) !! t = Some Armed ->
  t <> i /\ timers w !! t = Some Armed.
Proof.
  unfold fire. destruct (timers w !! i) as [[]|] eqn:E; cbn;
    try (intros H; split; [intros ->; congruence | exact H]).
  rewrite lookup_insert. destruct (decide (i = t)) as [->|Hne]; [discriminate|].
  intros H. split; [congruence | exact H].
Qed.

(** When the fetch settles otherwise than by a transport failure, the
    job's own timer is no longer armed and no other timer has changed to
    armed. *)
Lemma job_settle_armed p b w t :
  match b with Fails _ => False | _ => True end ->
  timers (snd (job_settle JSON_parse p b w)) !! t = Some Armed ->
  t <> p_timer p /\ timers w !! t = Some Armed.
Proof.
  intros Hb. unfold job_settle. destruct b as [resp|e|]; [|destruct Hb|].
  - destruct (negb (ok resp)).
    + destruct (resp_text resp); cbn [snd]; apply cancel_armed.
    + destruct (if includes _ _ then _ else _); cbn [snd]; apply cancel_armed.
  - cbn [snd]. apply fire_armed.
Qed.

Lemma handle_finish_timers p r w :
  timers (snd (handle_finish cfg p r w)) = timers w.
Proof.
  unfold handle_finish. destruct r as [res|e]; [|reflexivity].
  destruct (error res); [|reflexivity].
  destruct (NodeCache.get _ _ _) as [v|]; [destruct (truthy v)|]; reflexivity.
Qed.

Lemma step_armed s e :
  match e with Settle _ (Fails _) => False | _ => True end ->
  armed_ok s -> armed_ok (step1 s e).
Proof.
  intros He Hinv. destruct e as [req|id b|dt].
  - unfold step. destruct (handle_start cfg req (world s)) as [[r|p] w1] eqn:Hs.
    + destruct (handle_start_responded cfg req (world s) r w1 Hs) as [-> _].
      exact Hinv.
    + destruct (handle_start_submitted cfg req (world s) p w1 Hs)
        as (_ & _ & Hp & ->).
      intros t. rewrite limit_jobs.
      rewrite (proj1 (proj2 (proj2 (limit_frame cfg _ _)))).
      cbn [world timeoutSignal snd timers]. unfold jobs at 1. cbn [in_flight queue].
      rewrite lookup_insert. destruct (decide (next_timer (world s) = t)) as [<-|Hne].
      * intros _. eexists. split; [apply elem_of_app; right; left|].
        rewrite Hp. reflexivity.
      * intros Ht. destruct (Hinv t Ht) as (j & Hj & Hjt).
        exists j. split; [apply elem_of_app; now left | exact Hjt].
  - unfold step. destruct (take_job id (in_flight s)) as [[j0 rest]|] eqn:Ht;
      [|exact Hinv].
    destruct (take_job_spec _ _ _ _ Ht) as (_ & _ & Hsplit).
    pose proof (fun t => job_settle_armed (j_pending j0) b (world s) t He) as Hj.
    destruct (job_settle JSON_parse (j_pending j0) b (world s)) as [r w1].
    cbn [snd] in Hj.
    match goal with |- context [handle_finish cfg ?P ?R ?W] =>
      pose proof (handle_finish_timers P R W) as Hh;
      destruct (handle_finish cfg P R W) as [resp w2] end.
    cbn [snd] in Hh. unfold respond, next in *.
    match type of Hh with context [dequeue ?S] =>
      pose proof (dequeue_jobs S) as Hdj;
      destruct (dequeue_frame S) as (_ & _ & Hdt & _) end.
    intros t. unfold jobs in *. cbn [world in_flight queue] in *.
    rewrite Hdj, Hh, Hdt. intros Harm.
    destruct (Hj t Harm) as [Hne Hold].
    destruct (Hinv t Hold) as (j & Hin & Hjt). exists j. split; [|exact Hjt].
    apply elem_of_app in Hin as [Hin|Hin]; apply elem_of_app; [left|now right].
    destruct (Hsplit j Hin) as [->|Hr]; [congruence | exact Hr].
  - exact Hinv.
Qed.

Lemma run_armed evs : forall s,
  no_transport_failure evs = true -> armed_ok s -> armed_ok (runs evs s).
Proof.
  induction evs as [|e evs IH]; intros s Hev Hinv; [exact Hinv|].
  simpl in Hev. apply andb_true_iff in Hev as [He Hev].
  apply (IH _ Hev), step_armed; [|exact Hinv].
  destruct e as [req|id [resp|err|]|dt]; [exact I|exact I|discriminate|exact I|exact I].
Qed.

End EventLoopSafety.

(** X9.  Whatever requests arrive and however the fetches settle, every
    URL the proxy hands to [fetch] is the target of a whitelisted
    resource under [NZTABASE], with the caller's query serialized. *)
Theorem only_whitelisted_urls_fetched cfg JSON_parse now evs u :
  u ∈ fetched (world (run cfg JSON_parse evs (start cfg now))) ->
  exists r q, isSafeResource r = true /\ u = targetUrl (NZTABASE cfg) r q.
Proof.
  intros Hu.
  assert (Hinv : urls_inv cfg (run cfg JSON_parse evs (start cfg now))).
  { apply run_urls. split; constructor. }
  destruct Hinv as [Hf _]. rewrite Forall_forall in Hf. exact (Hf u Hu).
Qed.

Lemma only_whitelisted_urls_fetched_witness :
  exists r q,
    isSafeResource r = true
    /\ "https://trafficnz.info/service/traffic/rest/4/findRegionsAll"
       = targetUrl (NZTABASE default_config) r q.
Proof.
  apply (only_whitelisted_urls_fetched default_config sample_parse 0
           [Arrive {| resource := "evil"; query := [] |}; Arrive regions_all]).
  vm_compute. left.
Defined.

(** X10.  As long as no fetch is rejected by a transport failure, no timer
    outlives its request: every timer still armed belongs to a job that is
    in flight or queued, so with no job left no timer is armed. *)
Theorem timers_released_unless_transport_fails cfg JSON_parse now evs :
  no_transport_failure evs = true ->
  let s := run cfg JSON_parse evs (start cfg now) in
  (forall t, timers (world s) !! t = Some Armed ->
             exists j, j ∈ (in_flight s ++ queue s)%list
                       /\ p_timer (j_pending j) = t)
  /\ (in_flight s = [] -> queue s = [] ->
      forall t, timers (world s) !! t <> Some Armed).
Proof.
  intros Hev s.
  assert (Hinv : armed_inv s).
  { apply run_armed; [exact Hev|]. intros t Ht. cbn in Ht.
    rewrite lookup_empty in Ht. discriminate. }
  split; [exact Hinv|].
  intros Hi Hq t Ht. destruct (Hinv t Ht) as (j & Hj & _).
  unfold jobs in Hj. rewrite Hi, Hq in Hj. now apply elem_of_nil in Hj.
Qed.

Lemma timers_released_unless_transport_fails_witness :
  let s := run single_slot_config sample_parse
               [Arrive regions_all; Arrive regions_all;
                Settle 0 TimesOut; Settle 1 (Responds (text_reply 500 "boom"))]
               (start single_slot_config 0) in
  timers (world s) !! 0%nat <> Some Armed
  /\ timers (world s) !! 1%nat <> Some Armed.
Proof.
  intros s.
  destruct (timers_released_unless_transport_fails single_slot_config sample_parse 0
              [Arrive regions_all; Arrive regions_all;
               Settle 0 TimesOut; Settle 1 (Responds (text_reply 500 "boom"))]
              eq_refl) as [_ H].
  split; apply H; reflexivity.
Defined.

(** The state after one request has come and gone on an idle server. *)
Lemma lone_request_run cfg JSON_parse w ans n req wait b :
  (1 <= CONCURRENCY cfg)%nat ->
  run cfg JSON_parse [Arrive req; Tick wait; Settle n b]
      {| world := w; activeCount := O; queue := []; in_flight := [];
         answered := ans; next_id := n |}
  = match handle_start cfg req w with
    | (Responded r, w1) =>
        {| world := tick wait w1; activeCount := O; queue := []; in_flight := [];
           answered := ans ++ [(n, r)]; next_id := S n |}
    | (Submitted p, w1) =>
        let '(jr, w2) := job_settle JSON_parse p b (tick wait (fetch_call p w1)) in
        let '(resp, w3) := handle_finish cfg p jr w2 in
        {| world := w3; activeCount := O; queue := []; in_flight := [];
           answered := ans ++ [(n, resp)]; next_id := S n |}
    end.
Proof.
  intros HN. unfold run. cbn [fold_left]. unfold step at 3.
  cbn [world activeCount queue in_flight answered next_id].
  destruct (handle_start cfg req w) as [[r|p] w1].
  - reflexivity.
  - unfold limit. cbn [activeCount queue app].
    destruct (Nat.ltb_spec 0 (CONCURRENCY cfg)) as [_|]; [|lia].
    unfold dequeue, admit_job.
    cbn [queue world activeCount in_flight answered next_id app].
    unfold step at 2. cbn [world activeCount queue in_flight answered next_id].
    unfold step. cbn [in_flight take_job j_id]. rewrite Nat.eqb_refl.
    cbn [j_pending world].
    destruct (job_settle JSON_parse p b (tick wait (fetch_call p w1))) as [jr w2].
    unfold next, dequeue. cbn [queue world activeCount in_flight answered next_id].
    destruct (handle_finish cfg p jr w2) as [resp w3].
    reflexivity.
Qed.

(** X11.  With a free slot the limiter is transparent: on an idle server
    a request that arrives, waits and whose fetch then settles gets the
    answer [handler] computes and leaves the same cache, timers and list
    of fetched URLs; the limiter is idle again afterwards. *)
Theorem lone_request_matches_handler cfg JSON_parse s req wait b :
  (1 <= CONCURRENCY cfg)%nat ->
  activeCount s = O -> queue s = [] -> in_flight s = [] ->
  let s' := run cfg JSON_parse [Arrive req; Tick wait; Settle (next_id s) b] s in
  let out := handler cfg JSON_parse req wait b (world s) in
  answered s' = (answered s ++ [(next_id s, fst out)])%list
  /\ cache (world s') = cache (snd out)
  /\ timers (world s') = timers (snd out)
  /\ fetched (world s') = fetched (snd out)
  /\ activeCount s' = O /\ queue s' = [] /\ in_flight s' = [].
Proof.
  intros HN Ha Hq Hf. destruct s as [w a q f ans n].
  cbn [activeCount queue in_flight world answered next_id] in *. subst a q f.
  cbn zeta. rewrite (lone_request_run cfg JSON_parse w ans n req wait b HN).
  unfold handler.
  destruct (handle_start cfg req w) as [[r|p] w1].
  - cbn. repeat split.
  - destruct (job_settle JSON_parse p b (tick wait (fetch_call p w1))) as [jr w2].
    destruct (handle_finish cfg p jr w2) as [resp w3].
    cbn. repeat split.
Qed.

Lemma lone_request_matches_handler_witness :
  let s' := run default_config sample_parse
                [Arrive regions_all; Tick 100;
                 Settle 0 (Responds (json_reply 200 foo_doc))]
                (start default_config 0) in
  answered s' =
  [(O, fst (handler default_config sample_parse regions_all 100
                    (Responds (json_reply 200 foo_doc)) (boot default_config 0)))].
Proof.
  destruct (lone_request_matches_handler default_config sample_parse
              (start default_config 0) regions_all 100
              (Responds (json_reply 200 foo_doc)))
    as [H _]; [simpl; lia | reflexivity | reflexivity | reflexivity | exact H].
Defined.

(** * Further properties: hits, and what goes upstream *)

Section Hits.

Variable cfg : config.
Variable JSON_parse : string -> option json.

Lemma handle_start_hit_inv req w r w1 :
  handle_start cfg req w = (Responded r, w1) ->
  x_cache r = Some "HIT" ->
  isSafeResource (resource req) = true
  /\ exists v, NodeCache.get (clock w) (cacheKey (resource req) (query req)) (cache w)
               = Some v
               /\ truthy v = true /\ r = send 200 (Some "HIT") v.
Proof.
  unfold handle_start.
  destruct (isSafeResource (resource req)); simpl.
  - destruct (NodeCache.get _ _ _) as [v|]; simpl; [|discriminate].
    destruct (truthy v) eqn:Ht; [|discriminate].
    intros H _. injection H as <- <-. eauto.
  - intros H. injection H as <- <-. discriminate.
Qed.

Lemma handle_finish_not_hit p r w :
  x_cache (fst (handle_finish cfg p r w)) <> Some "HIT".
Proof.
  unfold handle_finish. destruct r as [res|e]; [|discriminate].
  destruct (error res); [|discriminate].
  destruct (NodeCache.get _ _ _) as [s|]; [destruct (truthy s)|]; discriminate.
Qed.

End Hits.

(** X12.  An answer is marked HIT exactly when the resource is whitelisted
    and the fresh entry of the request's key is live and truthy; the body
    is then the cached value itself and the process state is untouched:
    nothing fetched, no timer made, no cache entry written. *)
Theorem hit_iff_live_truthy_entry cfg JSON_parse req wait b w :
  let out := handler cfg JSON_parse req wait b w in
  let cached := NodeCache.get (clock w) (cacheKey (resource req) (query req))
                              (cache w) in
  (x_cache (fst out) = Some "HIT"
   <-> isSafeResource (resource req) = true /\ truthy_opt cached = true)
  /\ (x_cache (fst out) = Some "HIT" ->
      snd out = w /\ exists v, cached = Some v /\ fst out = send 200 (Some "HIT") v).
Proof.
  cbn zeta. unfold handler.
  destruct (handle_start cfg req w) as [[r|p] w1] eqn:Hs.
  - cbn [fst snd]. split.
    + split.
      * intros Hh. destruct (handle_start_hit_inv cfg req w r w1 Hs Hh)
          as (Hsafe & v & Hv & Ht & _). rewrite Hv. auto.
      * intros [Hsafe Ht].
        destruct (NodeCache.get _ _ _) as [v|] eqn:Hv; [|discriminate].
        simpl in Ht. rewrite (handle_start_hit cfg req w v Hsafe Hv Ht) in Hs.
        injection Hs as <- _. reflexivity.
    + intros Hh. destruct (handle_start_responded cfg req w r w1 Hs) as [-> _].
      destruct (handle_start_hit_inv cfg req w r w Hs Hh)
        as (_ & v & Hv & _ & ->). eauto.
  - destruct (handle_start_submitted cfg req w p w1 Hs) as (Hsafe & Hm & _ & _).
    destruct (job_settle JSON_parse p b (tick wait (fetch_call p w1))) as [jr w2].
    split; [split|].
    + intros Hh. now apply handle_finish_not_hit in Hh.
    + intros [_ Ht]. congruence.
    + intros Hh. now apply handle_finish_not_hit in Hh.
Qed.

Lemma hit_iff_live_truthy_entry_witness :
  let w := tick 1000
             (snd (handler default_config sample_parse regions_all 100
                           (Responds (json_reply 200 foo_doc))
                           (boot default_config 0))) in
  snd (handler default_config sample_parse regions_all 100 TimesOut w) = w.
Proof.
  intros w.
  destruct (hit_iff_live_truthy_entry default_config sample_parse regions_all
              100 TimesOut w) as [_ H].
  destruct H as [H _]; [vm_compute; reflexivity | exact H].
Defined.

(** X13.  A stored value is served for the fresh TTL and no longer.  After
    a MISS that stored a truthy value, the same request [dt] ms later is a
    HIT with exactly that value when [dt] is under the fresh TTL, whatever
    the upstream would do; from the fresh TTL on it is no HIT and one more
    URL goes to [fetch]. *)
Theorem fresh_entry_served_until_ttl
    cfg JSON_parse req wait resp d w dt wait' b' :
  isSafeResource (resource req) = true ->
  truthy_opt (NodeCache.get (clock w) (cacheKey (resource req) (query req)) (cache w))
    = false ->
  ok resp = true ->
  (if includes "application/json" (default "" (content_type resp))
   then resp_json JSON_parse resp else resp_text resp) = Return d ->
  let normalized := if is_string d then JObj [("raw", d)] else d in
  truthy normalized = true ->
  let w' := tick dt (snd (handler cfg JSON_parse req wait (Responds resp) w)) in
  let out := handler cfg JSON_parse req wait' b' w' in
  if Z.ltb dt (1000 * NodeCache.stdTTL (cache w))
  then out = (send 200 (Some "HIT") normalized, w')
  else x_cache (fst out) <> Some "HIT"
       /\ fetched (snd out)
          = (fetched w' ++ [targetUrl (NZTABASE cfg) (resource req) (query req)])%list.
Proof.
  intros Hs Hm Hok Hd normalized Ht w' out.
  destruct (Z.ltb_spec dt (1000 * NodeCache.stdTTL (cache w))) as [Hlt|Hge].
  - exact (repeat_within_ttl_hits cfg JSON_parse req wait resp d w dt wait' b'
             Hs Hm Hok Hd Ht Hlt).
  - assert (Hm' : truthy_opt (NodeCache.get (clock w')
                    (cacheKey (resource req) (query req)) (cache w')) = false).
    { unfold w'.
      rewrite (handler_miss_success cfg JSON_parse req wait resp d w Hs Hm Hok Hd).
      cbn [snd tick clock cache with_cache].
      rewrite (proj2 (cancel_frame _ _)). cbn [tick fetch_call clock].
      rewrite get_set_other by (symmetry; apply stale_key_ne).
      rewrite get_set_same. cbn [default timeoutSignal snd clock].
      destruct (Z.ltb_spec (clock w + wait + dt)
                  (clock w + wait + 1000 * NodeCache.stdTTL (cache w)));
        [lia | reflexivity]. }
    unfold out.
    rewrite (handler_miss cfg JSON_parse req wait' b' w' Hs Hm'). split.
    + apply handle_finish_not_hit.
    + now rewrite handle_finish_fetched, job_settle_fetched.
Qed.

Lemma fresh_entry_served_until_ttl_witness :
  let w1 := snd (handler default_config sample_parse regions_all 100
                         (Responds (json_reply 200 foo_doc))
                         (boot default_config 0)) in
  handler default_config sample_parse regions_all 100 TimesOut (tick 29999 w1)
  = (send 200 (Some "HIT") (JObj [("foo", JNum 1)]), tick 29999 w1).
Proof.
  apply (fresh_entry_served_until_ttl default_config sample_parse regions_all
           100 (json_reply 200 foo_doc) (JObj [("foo", JNum 1)])
           (boot default_config 0) 29999 100 TimesOut);
    vm_compute; reflexivity.
Defined.

(** The characters of a serialized query. *)
Lemma encode_byte_query_chars a : all_chars query_char (encode_byte a) = true.
Proof. each_byte a; reflexivity. Qed.

Lemma urlencode_query_chars s : all_chars query_char (urlencode s) = true.
Proof.
  induction s as [|a s IH]; simpl; [reflexivity|].
  now rewrite all_chars_app, encode_byte_query_chars, IH.
Qed.

Lemma toString_query_chars q :
  all_chars query_char (URLSearchParams_toString q) = true.
Proof.
  induction q as [|p q IH]; [reflexivity|].
  rewrite toString_cons, all_chars_app. simpl.
  rewrite all_chars_app, !urlencode_query_chars. simpl.
  destruct q as [|p' q]; [reflexivity|]. simpl. exact IH.
Qed.

(** X14.  What goes upstream is well formed whatever the caller sends:
    the target is the base, [/], a resource name of letters and digits,
    and then nothing when there are no parameters, or [?] and a query made
    only of letters, digits and [* - . _ + % = &]: no parameter can add a
    path segment, a second [?], a fragment, a space or a line break. *)
Theorem target_url_well_formed base r q :
  isSafeResource r = true ->
  all_chars is_alnum r = true
  /\ ((q = [] /\ targetUrl base r q = base ++ "/" ++ r)
      \/ (q <> [] /\ exists qs, targetUrl base r q = base ++ "/" ++ r ++ "?" ++ qs
                               /\ all_chars query_char qs = true)).
Proof.
  intros Hs. split; [now apply allowed_names_alnum|].
  unfold targetUrl. cbn zeta.
  destruct (String.eqb_spec (URLSearchParams_toString q) "") as [E|E].
  - left. split; [now apply toString_empty | now rewrite append_nil_r].
  - right. split; [intros ->; now apply E|].
    exists (URLSearchParams_toString q). split; [reflexivity|].
    apply toString_query_chars.
Qed.

Lemma target_url_well_formed_witness :
  targetUrl "https://up" "findCamerasAll" [("a b", "/../x?y#z")]
  = "https://up/findCamerasAll?a+b=%2F..%2Fx%3Fy%23z".
Proof.
  destruct (target_url_well_formed "https://up" "findCamerasAll"
              [("a b", "/../x?y#z")]) as [_ [[H _]|[_ (qs & H & _)]]];
    [vm_compute; reflexivity | discriminate H | reflexivity].
Defined.
